(** * Text chunker: a shallow embedding of
      [cpp_extensions/text_chunking/text_chunker.cpp]

    The two exported functions, [split_text] and
    [split_text_with_word_count], are embedded as Rocq functions over
    byte strings.  Conventions:

    - a [std::string] is a [list ascii]; [size()] is [len];
    - [size_t] values are integers in [0, 2^64) and [int] values are
      integers in [-2^31, 2^31); every conversion and every operation
      that can leave the range is written with its wrap-around;
    - the two [find] loops always make progress (the separator is one of
      two non-empty constants), so they are total functions, defined by
      well-founded recursion on the unread part of the text;
    - the fixed-width [for] loop advances by a stride that the caller
      controls, so it is defined with a step budget and its termination
      is a theorem, not an assumption;
    - memory is assumed sufficient (no [bad_alloc]).  A [reserve] is then
      observable in two ways only, and both are modelled: the buffer
      reserve heading each merge block (lines 58 and 111) takes an [int]
      sum converted to [size_t] and throws [std::length_error] when that
      exceeds [max_size()]; the vector reserve of line 143 divides by the
      stride.  The vector reserves themselves ask for at most
      [len + 1] elements and are taken to be served. *)

From Stdlib Require Import String Ascii ZArith List Bool Lia.
From Equations Require Import Equations.
Import ListNotations.

Local Open Scope Z_scope.

(** ** Machine integers *)

Module Machine.

Definition size_modulus : Z := 2 ^ 64.
Definition int_min : Z := - 2 ^ 31.
Definition int_max : Z := 2 ^ 31 - 1.

(** The values an [int] parameter can hold. *)
Definition is_int (z : Z) : Prop := int_min <= z <= int_max.

(** [static_cast<size_t>(z)], also the implicit conversion applied to an
    [int] operand that meets a [size_t] one. *)
Definition to_size_t (z : Z) : Z := z mod size_modulus.

(** Reduction of a mathematical result to [int].  Signed overflow is
    undefined in C++; the model takes the two's complement result that the
    usual targets produce. *)
Definition to_int (z : Z) : Z := (z + 2 ^ 31) mod 2 ^ 32 - 2 ^ 31.

Definition int_add (a b : Z) : Z := to_int (a + b).
Definition int_sub (a b : Z) : Z := to_int (a - b).
Definition int_mul (a b : Z) : Z := to_int (a * b).

Definition size_add (a b : Z) : Z := to_size_t (a + b).
Definition size_sub (a b : Z) : Z := to_size_t (a - b).

End Machine.
Import Machine.

(** ** Strings *)

Definition cpp_string : Type := list ascii.

(** [s.length()] as a [size_t] value. *)
Definition len (s : cpp_string) : Z := Z.of_nat (length s).

(** [std::string::max_size()] of libstdc++ on a 64-bit target. *)
Definition string_max_size : Z := 2 ^ 62 - 1.

(** The strings that can exist at run time. *)
Definition fits (s : cpp_string) : Prop := len s <= string_max_size.

(** [empty()], of a string and of a vector alike. *)
Definition is_empty {A : Type} (l : list A) : bool :=
  match l with [] => true | _ :: _ => false end.

(** [s.substr(pos, n)]: the characters [pos, min(pos + n, size())).  Every
    call in the source is guarded so that [pos <= size()]. *)
Definition substr (s : cpp_string) (pos n : Z) : cpp_string :=
  firstn (Z.to_nat n) (skipn (Z.to_nat pos) s).

(** [s.substr(pos)]. *)
Definition substr_from (s : cpp_string) (pos : Z) : cpp_string :=
  skipn (Z.to_nat pos) s.

Definition newline : ascii := "010"%char.

(** The separator tiers, in the order the source tries them. *)
Inductive separator : Type :=
| double_newline
| single_newline.

Definition sep_string (sep : separator) : cpp_string :=
  match sep with
  | double_newline => [newline; newline]
  | single_newline => [newline]
  end.

Fixpoint starts_with (p s : cpp_string) : bool :=
  match p, s with
  | [], _ => true
  | _ :: _, [] => false
  | a :: p', b :: s' => Ascii.eqb a b && starts_with p' s'
  end.

(** First occurrence of [p] in [s], as an offset into [s]. *)
Fixpoint find_in (p s : cpp_string) : option nat :=
  if starts_with p s then Some 0%nat
  else match s with
       | [] => None
       | _ :: s' => option_map S (find_in p s')
       end.

(** [text.find(p, pos)]; [None] is [string::npos].  Positions inside a
    string are kept as [nat]: they never exceed [size()]. *)
Definition find (text p : cpp_string) (pos : nat) : option nat :=
  if (length text <? pos)%nat then None
  else option_map (Nat.add pos) (find_in p (skipn pos text)).

(** ** The separator splitter (lines 38-53 and 92-106) *)

Definition inspect {A : Type} (a : A) : {b : A | a = b} := exist _ a eq_refl.

(** The [while ((next_pos = text.find(sep, start_pos)) != npos)] loop.  The
    state is [(has_splits, splits, start_pos)]. *)
Equations? find_loop (sep : separator) (text : cpp_string)
    (has_splits : bool) (splits : list cpp_string) (start_pos : nat)
    : bool * list cpp_string * nat
    by wf (length text - start_pos)%nat lt :=
  find_loop sep text has_splits splits start_pos
    with inspect (find text (sep_string sep) start_pos) := {
    | exist _ (Some next_pos) Hfind =>
        find_loop sep text true
          (splits ++ [substr text (Z.of_nat start_pos)
                        (Z.of_nat next_pos - Z.of_nat start_pos)])
          (next_pos + length (sep_string sep))%nat
    | exist _ None _ => (has_splits, splits, start_pos) }.
Proof.
  clear find_loop. revert Hfind. unfold find.
  destruct (Nat.ltb_spec (length text) start_pos) as [|Hle]; [discriminate|].
  destruct (find_in _ _) as [k|] eqn:E; simpl; [|discriminate].
  intros [= <-].
  assert (Hpre : forall p t : cpp_string,
             starts_with p t = true -> (length p <= length t)%nat).
  { induction p as [|a p IHp]; intros [|b t]; simpl; try lia; try discriminate.
    intros B. apply andb_prop in B. destruct B as [_ B].
    apply IHp in B. lia. }
  assert (Hocc : forall s j, find_in (sep_string sep) s = Some j ->
                   (j + length (sep_string sep) <= length s)%nat).
  { induction s as [|c s IH]; intros j; simpl.
    - destruct sep; discriminate.
    - destruct (starts_with (sep_string sep) (c :: s)) eqn:B.
      + intros [= <-]. apply Hpre in B. simpl in B. lia.
      + destruct (find_in (sep_string sep) s) as [i|]; simpl; [|discriminate].
        intros [= <-]. specialize (IH i eq_refl). lia. }
  apply Hocc in E. rewrite length_skipn in E.
  destruct sep; simpl in *; lia.
Qed.

(** The loop followed by "add the last piece". *)
Definition find_splits (sep : separator) (text : cpp_string)
    : bool * list cpp_string :=
  let '(has_splits, splits, start_pos) := find_loop sep text false [] 0%nat in
  if has_splits && (Z.of_nat start_pos <? len text)
  then (has_splits, splits ++ [substr_from text (Z.of_nat start_pos)])
  else (has_splits, splits).

(** ** The greedy merger (lines 57-84 and 110-134) *)

(** One iteration of [for (const auto& split : splits)]; the state is
    [(chunks, current_chunk)]. *)
Definition merge_split (sep : separator) (chunk_size chunk_overlap : Z)
    (st : list cpp_string * cpp_string) (split : cpp_string)
    : list cpp_string * cpp_string :=
  let '(chunks, current_chunk) := st in
  let '(chunks, current_chunk) :=
    if negb (is_empty current_chunk)
       && (to_size_t chunk_size
             <? size_add (size_add (len current_chunk) (len split))
                         (len (sep_string sep)))
    then
      (chunks ++ [current_chunk],
       if (0 <? chunk_overlap) && (to_size_t chunk_overlap <? len current_chunk)
       then substr_from current_chunk
              (size_sub (len current_chunk) (to_size_t chunk_overlap))
       else [])
    else (chunks, current_chunk) in
  (chunks,
   if is_empty current_chunk then split
   else current_chunk ++ sep_string sep ++ split).

(** The loop of lines 60-79 (113-130) and "add final chunk", lines 82-84
    (132-134): the merge block after its reserve. *)
Definition merge_splits (sep : separator) (chunk_size chunk_overlap : Z)
    (chunks : list cpp_string) (splits : list cpp_string) : list cpp_string :=
  let '(chunks, current_chunk) :=
    fold_left (merge_split sep chunk_size chunk_overlap) splits (chunks, []) in
  if is_empty current_chunk then chunks else chunks ++ [current_chunk].

(** [current_chunk.reserve(chunk_size + chunk_overlap)], lines 58 and 111:
    the [int] sum is converted to [size_t], and [reserve] throws
    [std::length_error] when the request exceeds [max_size()].  That is the
    case exactly when the sum, as an [int], is negative. *)
Definition reserve_throws (chunk_size chunk_overlap : Z) : bool :=
  string_max_size <? to_size_t (int_add chunk_size chunk_overlap).

(** The merge block, lines 57-84 (110-134): the reserve, then the loop and
    the final push.  [None]: [std::length_error] was thrown. *)
Definition merge_block (sep : separator) (chunk_size chunk_overlap : Z)
    (chunks : list cpp_string) (splits : list cpp_string)
    : option (list cpp_string) :=
  if reserve_throws chunk_size chunk_overlap then None
  else Some (merge_splits sep chunk_size chunk_overlap chunks splits).

(** One separator tier: split and, when the separator occurs, run the merge
    block on [chunks].  [None]: the block threw; otherwise the flag tells
    whether [return chunks] is taken. *)
Definition run_tier (sep : separator) (text : cpp_string)
    (chunk_size chunk_overlap : Z) (chunks : list cpp_string)
    : option (bool * list cpp_string) :=
  let '(has_splits, splits) := find_splits sep text in
  if has_splits then
    match merge_block sep chunk_size chunk_overlap chunks splits with
    | Some chunks => Some (negb (is_empty chunks), chunks)
    | None => None
    end
  else Some (false, chunks).

(** ** The fixed-width fallback (lines 142-150) *)

(** How a call to [split_text] ends. *)
Inductive outcome : Type :=
| Returned (chunks : list cpp_string)
| DivisionByZero     (* the division of line 143, by a zero stride *)
| LengthError        (* [std::length_error], thrown by a buffer reserve *)
| OutOfFuel.

(** [for (size_t i = 0; i < text.length(); i += chunk_size - chunk_overlap)],
    entered at [i] with [stride] the increment as a [size_t]; the chunks are
    listed in the order they are pushed.  [None]: the budget ran out. *)
Fixpoint fallback_loop (fuel : nat) (text : cpp_string) (chunk_size stride : Z)
    (i : Z) : option (list cpp_string) :=
  match fuel with
  | O => None
  | S fuel' =>
      if i <? len text then
        let e := Z.min (size_add i (to_size_t chunk_size)) (len text) in
        match fallback_loop fuel' text chunk_size stride (size_add i stride) with
        | Some chunks => Some (substr text i (size_sub e i) :: chunks)
        | None => None
        end
      else Some []
  end.

Definition fallback (fuel : nat) (text : cpp_string)
    (chunk_size chunk_overlap : Z) : outcome :=
  let stride := to_size_t (int_sub chunk_size chunk_overlap) in
  if stride =? 0 then DivisionByZero
  else match fallback_loop fuel text chunk_size stride 0 with
       | Some chunks => Returned chunks
       | None => OutOfFuel
       end.

(** ** [split_text] *)

(** Where a call leaves: a [return] statement, or the block in which it
    faults. *)
Inductive exit_point : Type :=
| ShortCircuit     (* line 28 *)
| ParagraphTier    (* lines 56-89 *)
| LineTier         (* lines 109-139 *)
| FallbackTier.    (* lines 141-150 *)

Definition split_text_traced (fuel : nat) (text : cpp_string)
    (chunk_size chunk_overlap : Z) : exit_point * outcome :=
  if len text <=? to_size_t chunk_size then (ShortCircuit, Returned [text])
  else
    match run_tier double_newline text chunk_size chunk_overlap [] with
    | None => (ParagraphTier, LengthError)
    | Some (true, chunks) => (ParagraphTier, Returned chunks)
    | Some (false, chunks) =>
        match run_tier single_newline text chunk_size chunk_overlap chunks with
        | None => (LineTier, LengthError)
        | Some (true, chunks) => (LineTier, Returned chunks)
        | Some (false, _) =>
            (FallbackTier, fallback fuel text chunk_size chunk_overlap)
        end
    end.

Definition split_text (fuel : nat) (text : cpp_string)
    (chunk_size chunk_overlap : Z) : outcome :=
  snd (split_text_traced fuel text chunk_size chunk_overlap).

(** ** [split_text_with_word_count] *)

(** [isspace] in the "C" locale: tab, line feed, vertical tab, form feed,
    carriage return and space.  Bytes above 127 are not white space. *)
Definition isspace (c : ascii) : bool :=
  let n := nat_of_ascii c in
  ((9 <=? n) && (n <=? 13) || (n =? 32))%nat.

(** One iteration of [for (char c : sample)]; the state is
    [(word_count, in_word)]. *)
Definition count_step (st : Z * bool) (c : ascii) : Z * bool :=
  let '(word_count, in_word) := st in
  if isspace c then (word_count, false)
  else if negb in_word then (size_add word_count 1, true)
  else (word_count, in_word).

Definition sample_size (text : cpp_string) : Z := Z.min (len text) 500.

Definition sample (text : cpp_string) : cpp_string :=
  substr text 0 (sample_size text).

Definition word_count (text : cpp_string) : Z :=
  fst (fold_left count_step (sample text) (0, false)).

Definition avg_word_length (text : cpp_string) : Z :=
  if 0 <? word_count text
  then int_add (to_int (sample_size text / word_count text)) 1
  else 6.

(** The character counts handed to [split_text]. *)
Definition chunk_size_chars (text : cpp_string) (chunk_size_words : Z) : Z :=
  int_mul chunk_size_words (avg_word_length text).

Definition chunk_overlap_chars (text : cpp_string) (chunk_overlap_words : Z) : Z :=
  int_mul chunk_overlap_words (avg_word_length text).

Definition split_text_with_word_count (fuel : nat) (text : cpp_string)
    (chunk_size_words chunk_overlap_words : Z) : outcome :=
  split_text fuel text
    (chunk_size_chars text chunk_size_words)
    (chunk_overlap_chars text chunk_overlap_words).

(** ** [sha256_hash] (hash_generator.cpp lines 19-44, pdf_extractor.cpp
       lines 24-40)

    The digest is computed by OpenSSL; it enters as a parameter [digest]
    giving the [hash_len] bytes that [EVP_DigestFinal_ex] stores.  What the
    source itself does is the formatting loop. *)

(** The digits the stream uses under [hex] (no [uppercase]). *)
Definition hex_digit (d : nat) : ascii :=
  nth d (list_ascii_of_string "0123456789abcdef") "0"%char.

(** [ss << hex << v] for a non-negative [v]: most significant digit first,
    no leading zero. *)
Equations? hex_repr (v : nat) : cpp_string by wf v lt :=
  hex_repr v with inspect (v <? 16)%nat := {
    | exist _ true _ => [hex_digit v]
    | exist _ false Hv => hex_repr (v / 16) ++ [hex_digit (v mod 16)] }.
Proof.
  apply Nat.ltb_ge in Hv. change (v / 16 < v)%nat. apply Nat.div_lt; lia.
Qed.

(** [setw(width) << setfill(fill)] applied to one insertion: the field is
    padded on the left. *)
Definition setw_setfill (width : nat) (fill : ascii) (field : cpp_string)
    : cpp_string :=
  repeat fill (width - length field) ++ field.

(** One iteration of the formatting loop; the state is the stream [ss]. *)
Definition hex_step (ss : cpp_string) (hash_i : ascii) : cpp_string :=
  ss ++ setw_setfill 2 "0"%char (hex_repr (nat_of_ascii hash_i)).

Definition sha256_hash (digest : cpp_string -> list ascii) (data : cpp_string)
    : cpp_string :=
  let hash := digest data in
  fold_left hex_step hash [].

(** [compute_sha256]: the bytes object is copied into a string and hashed. *)
Definition compute_sha256 (digest : cpp_string -> list ascii)
    (buffer : cpp_string) : cpp_string :=
  sha256_hash digest buffer.

(** ** [pdf_extractor.cpp]

    Poppler is outside the source.  A loaded document is what the source
    asks of it: whether it is locked, its page count (an [int]), and for a
    page index either no page object or the UTF-8 bytes of the page text
    ([create_page], [text], [to_utf8]). *)
Record document : Type := {
  is_locked : bool;
  pages : Z;
  create_page : Z -> option cpp_string
}.

(** A value, or the [runtime_error] thrown, with its [what()]. *)
Inductive result (A : Type) : Type :=
| Value (a : A)
| runtime_error (what : cpp_string).
Arguments Value {A} a.
Arguments runtime_error {A} what.

Definition load_failed : cpp_string :=
  list_ascii_of_string "Failed to load PDF or PDF is encrypted".

Definition extraction_prefix : cpp_string :=
  list_ascii_of_string "Error extracting text from PDF: ".

(** One iteration of the page loop; the state is [all_text]. *)
Definition page_step (doc : document) (all_text : cpp_string) (i : Z)
    : cpp_string :=
  match create_page doc i with
  | Some utf8_text => (all_text ++ utf8_text) ++ [newline]
  | None => all_text
  end.

(** The indices [for (int i = 0; i < doc->pages(); ++i)] visits. *)
Definition page_indices (doc : document) : list Z :=
  map Z.of_nat (seq 0 (Z.to_nat (pages doc))).

(** [load_from_raw_data] takes the bytes and their count converted to
    [int]; [None] is the null pointer. *)
Definition extract_text_from_pdf_buffer
    (load_from_raw_data : cpp_string -> Z -> option document)
    (buffer : cpp_string) : result cpp_string :=
  match load_from_raw_data buffer (to_int (len buffer)) with
  | None => runtime_error load_failed
  | Some doc =>
      if is_locked doc then runtime_error load_failed
      else Value (fold_left (page_step doc) (page_indices doc) [])
  end.

Definition extract_pdf_text_and_hash
    (load_from_raw_data : cpp_string -> Z -> option document)
    (digest : cpp_string -> list ascii)
    (buffer : cpp_string) : result (cpp_string * cpp_string) :=
  let hash_str := sha256_hash digest buffer in
  match extract_text_from_pdf_buffer load_from_raw_data buffer with
  | Value text => Value (text, hash_str)
  | runtime_error what => runtime_error (extraction_prefix ++ what)
  end.

(** ** Vocabulary of the properties *)

Definition str (s : string) : cpp_string := list_ascii_of_string s.

Definition nl2 : cpp_string := sep_string double_newline.

(** A line feed followed by 2^30 + 1 other characters. *)
Definition huge_text : cpp_string :=
  newline :: repeat "x"%char (Z.to_nat 1073741825).

(** Three paragraphs of eight characters each. *)
Definition three_paragraphs : cpp_string :=
  str "aaaaaaaa" ++ nl2 ++ str "bbbbbbbb" ++ nl2 ++ str "cccccccc".

(** Segments rejoined with the separator between consecutive ones. *)
Fixpoint join (sep : cpp_string) (segments : list cpp_string) : cpp_string :=
  match segments with
  | [] => []
  | [s] => s
  | s :: rest => s ++ sep ++ join sep rest
  end.

(** Every segment followed by the separator. *)
Definition terminated (sep : cpp_string) (segments : list cpp_string)
    : cpp_string :=
  concat (map (fun s => s ++ sep) segments).

(** What the [find] loop maintains: the segments pushed so far, each followed
    by the separator, and the unread part of the text make up the text; the
    flag is set exactly when a segment was pushed. *)
Definition splitter_inv (sep : separator) (text : cpp_string)
    (has_splits : bool) (splits : list cpp_string) (start_pos : nat) : Prop :=
  (start_pos <= length text)%nat /\
  terminated (sep_string sep) splits ++ skipn start_pos text = text /\
  (has_splits = true <-> splits <> []) /\
  Forall (fun s => (length s <= length text)%nat) splits.

(** The segments a separator tier hands to the merger. *)
Definition segments (sep : separator) (text : cpp_string) : list cpp_string :=
  snd (find_splits sep text).

(** Where a chunk of the merger comes from: it is within [chunk_size], or it
    is one segment on its own, or it is an overlap carry of exactly
    [chunk_overlap] characters followed by the separator and one segment. *)
Inductive chunk_origin (sep : separator) (chunk_size chunk_overlap : Z)
    (segs : list cpp_string) (c : cpp_string) : Prop :=
| within_size : len c <= chunk_size -> chunk_origin sep chunk_size chunk_overlap segs c
| single_segment : In c segs -> chunk_origin sep chunk_size chunk_overlap segs c
| carry_and_segment (carry seg : cpp_string) :
    In seg segs -> len carry = chunk_overlap ->
    c = carry ++ sep_string sep ++ seg ->
    chunk_origin sep chunk_size chunk_overlap segs c.

(** A two-page document whose second page object cannot be created, and a
    loader that always returns it. *)
Definition demo_document : document := {|
  is_locked := false;
  pages := 2;
  create_page := fun i => if i =? 0 then Some (str "Hello world") else None
|}.

Definition demo_load (buffer : cpp_string) (length : Z) : option document :=
  Some demo_document.

(** The string ends with a line feed. *)
Definition ends_with_line_feed (s : cpp_string) : Prop :=
  exists body, s = body ++ [newline].

(** The value of a hexadecimal digit, and the bytes a string of such digits
    stands for, two digits a byte. *)
Definition hex_value (c : ascii) : nat :=
  let n := nat_of_ascii c in
  if (n <? 58)%nat then (n - 48)%nat else (n - 87)%nat.

Fixpoint hex_decode (s : cpp_string) : list ascii :=
  match s with
  | hi :: lo :: rest =>
      ascii_of_nat (16 * hex_value hi + hex_value lo) :: hex_decode rest
  | _ => []
  end.

(** [s] occurs in [t] as a contiguous part. *)
Definition infix (s t : cpp_string) : Prop :=
  exists pre post, t = pre ++ s ++ post.

(** The segments [done] are accounted for in the state of the merger: each
    non-empty one occurs in an emitted chunk or in the buffer. *)
Definition covered (done : list cpp_string)
    (st : list cpp_string * cpp_string) : Prop :=
  forall seg, In seg done -> seg <> [] ->
    (exists c, In c (fst st) /\ infix seg c) \/ infix seg (snd st).

(** [next] opens with the overlap carry of [prev]: when [prev] is longer than
    [chunk_overlap], its last [chunk_overlap] characters, then the
    separator. *)
Definition carries (sep : separator) (chunk_overlap : Z)
    (prev next : cpp_string) : Prop :=
  chunk_overlap < len prev ->
  exists rest,
    next = skipn (Z.to_nat (len prev - chunk_overlap)) prev
             ++ sep_string sep ++ rest.

(** Every two consecutive elements of a list are related. *)
Inductive chained {A : Type} (R : A -> A -> Prop) : list A -> Prop :=
| chained_nil : chained R []
| chained_one (a : A) : chained R [a]
| chained_cons (a b : A) (l : list A) :
    R a b -> chained R (b :: l) -> chained R (a :: b :: l).

(** The state of the merger after the segments [done], when no overlap is
    carried: nothing was seen yet, or the buffer is non-empty and the
    emitted chunks with the buffer rejoin to the segments seen. *)
Definition keeps (sep : separator) (done : list cpp_string)
    (st : list cpp_string * cpp_string) : Prop :=
  (done = [] /\ st = ([], [])) \/
  (done <> [] /\ snd st <> [] /\
   join (sep_string sep) (fst st ++ [snd st]) = join (sep_string sep) done).

(** The [k]-th fixed-width window: [text[k * stride, k * stride +
    chunk_size)], cut at the end of the text. *)
Definition window (text : cpp_string) (chunk_size stride : Z) (k : nat)
    : cpp_string :=
  substr text (Z.of_nat k * stride) chunk_size.

(** How many windows start inside the text: [len] over [stride], rounded
    up. *)
Definition window_count (text : cpp_string) (stride : Z) : nat :=
  Z.to_nat ((len text + stride - 1) / stride).

(** The text holds no line feed, so no separator tier applies. *)
Definition no_line_break (text : cpp_string) : Prop :=
  forallb (fun c => negb (Ascii.eqb newline c)) text = true.

(** What is left of the text after the last separator the loop consumed. *)
Definition remainder (sep : separator) (text : cpp_string) : cpp_string :=
  let '(_, _, start_pos) := find_loop sep text false [] 0%nat in
  substr_from text (Z.of_nat start_pos).

(** The chunks with the leading [chunk_overlap] characters removed from each
    one after the first, concatenated. *)
Definition strip_concat (chunk_overlap : Z) (chunks : list cpp_string)
    : cpp_string :=
  match chunks with
  | [] => []
  | c :: rest => c ++ concat (map (skipn (Z.to_nat chunk_overlap)) rest)
  end.

(** * Properties *)

(** ** Arithmetic in range *)

Ltac consts :=
  unfold is_int, fits, string_max_size, int_min, int_max, size_modulus in *;
  change (2 ^ 64) with 18446744073709551616 in *;
  change (2 ^ 62) with 4611686018427387904 in *;
  change (2 ^ 32) with 4294967296 in *;
  change (2 ^ 31) with 2147483648 in *.

(** Range side conditions at concrete inputs. *)
Ltac concrete := consts; unfold len; simpl; lia.

Lemma to_size_t_id (z : Z) : 0 <= z < 2 ^ 64 -> to_size_t z = z.
Proof. intros H. unfold to_size_t. consts. apply Z.mod_small. lia. Qed.

Lemma to_size_t_neg (z : Z) : - 2 ^ 64 <= z < 0 -> to_size_t z = z + 2 ^ 64.
Proof.
  intros H. unfold to_size_t. consts.
  symmetry. apply (Z.mod_unique z _ (-1)); lia.
Qed.

Lemma to_int_id (z : Z) : is_int z -> to_int z = z.
Proof. intros H. unfold to_int. consts. rewrite Z.mod_small; lia. Qed.

Lemma to_size_t_range (z : Z) : 0 <= to_size_t z < 2 ^ 64.
Proof. unfold to_size_t. consts. apply Z.mod_pos_bound. lia. Qed.

Lemma to_int_range (z : Z) : is_int (to_int z).
Proof.
  unfold to_int. consts.
  pose proof (Z.mod_pos_bound (z + 2147483648) 4294967296 ltac:(lia)). lia.
Qed.

(** The buffer reserve throws exactly when the [int] sum is negative. *)
Lemma reserve_throws_iff (chunk_size chunk_overlap : Z) :
  reserve_throws chunk_size chunk_overlap = true
  <-> int_add chunk_size chunk_overlap < 0.
Proof.
  unfold reserve_throws.
  pose proof (to_int_range (chunk_size + chunk_overlap)) as Hr.
  fold (int_add chunk_size chunk_overlap) in Hr.
  destruct (Z.lt_ge_cases (int_add chunk_size chunk_overlap) 0) as [Hneg|Hpos].
  - rewrite to_size_t_neg by (consts; lia). split; [intros _; exact Hneg|].
    intros _. apply Z.ltb_lt. consts. lia.
  - rewrite to_size_t_id by (consts; lia). split; [|lia].
    intros H. apply Z.ltb_lt in H. consts. lia.
Qed.

Lemma reserve_served (chunk_size chunk_overlap : Z) :
  0 <= int_add chunk_size chunk_overlap ->
  reserve_throws chunk_size chunk_overlap = false.
Proof.
  intros H. destruct (reserve_throws chunk_size chunk_overlap) eqn:E;
    [|reflexivity].
  apply reserve_throws_iff in E. lia.
Qed.

Lemma valid_sum (chunk_size chunk_overlap : Z) :
  is_int chunk_size -> 0 < chunk_overlap < chunk_size ->
  chunk_size + chunk_overlap <= int_max ->
  0 <= int_add chunk_size chunk_overlap.
Proof.
  intros Hcs Hv Hsum. unfold int_add. rewrite to_int_id; consts; lia.
Qed.

Lemma len_nonneg (s : cpp_string) : 0 <= len s.
Proof. unfold len. lia. Qed.

Lemma len_app (s t : cpp_string) : len (s ++ t) = len s + len t.
Proof. unfold len. rewrite length_app. lia. Qed.

Lemma is_empty_true {A : Type} (l : list A) : is_empty l = true <-> l = [].
Proof. destruct l; simpl; split; congruence. Qed.

Lemma is_empty_false {A : Type} (l : list A) : is_empty l = false <-> l <> [].
Proof. destruct l; simpl; split; congruence. Qed.

(** ** Facts about [find] *)

Lemma find_in_bound (p s : cpp_string) (k : nat) :
  find_in p s = Some k -> starts_with p (skipn k s) = true /\ (k <= length s)%nat.
Proof.
  revert k. induction s as [|c s IH]; intros k; simpl.
  - destruct (starts_with p []) eqn:E; [|discriminate].
    intros [= <-]. split; [exact E | lia].
  - destruct (starts_with p (c :: s)) eqn:E.
    + intros [= <-]. split; [exact E | lia].
    + destruct (find_in p s) as [j|]; simpl; [|discriminate].
      intros [= <-]. destruct (IH j eq_refl) as [A B]. split; [exact A | lia].
Qed.

Lemma starts_with_length (p s : cpp_string) :
  starts_with p s = true -> (length p <= length s)%nat.
Proof.
  revert s. induction p as [|a p IH]; intros [|b s]; simpl; try lia; try discriminate.
  intros H. apply andb_prop in H. destruct H as [_ H]. apply IH in H. lia.
Qed.

Lemma find_progress (sep : separator) (text : cpp_string) (start_pos next_pos : nat) :
  find text (sep_string sep) start_pos = Some next_pos ->
  (start_pos <= next_pos /\
   next_pos + length (sep_string sep) <= length text /\
   0 < length (sep_string sep))%nat.
Proof.
  unfold find. destruct (Nat.ltb_spec (length text) start_pos) as [|Hle]; [discriminate|].
  destruct (find_in _ _) as [k|] eqn:E; simpl; [|discriminate].
  intros [= <-]. apply find_in_bound in E. destruct E as [E B].
  apply starts_with_length in E. rewrite !length_skipn in *.
  destruct sep; simpl in *; lia.
Qed.

(** ** The short circuit *)

(** Line 26 compares the length with the converted [chunk_size]; nothing
    else is looked at before the first [return]. *)
Lemma short_circuit (fuel : nat) (text : cpp_string)
    (chunk_size chunk_overlap : Z) :
  len text <= to_size_t chunk_size ->
  split_text_traced fuel text chunk_size chunk_overlap
  = (ShortCircuit, Returned [text]).
Proof.
  intros H. unfold split_text_traced.
  destruct (Z.leb_spec (len text) (to_size_t chunk_size)); [reflexivity | lia].
Qed.

(** C6.  A text no longer than [chunk_size] comes back as the only chunk,
    whatever valid [chunk_overlap] is given. *)
Theorem short_text_single_chunk (fuel : nat) (text : cpp_string)
    (chunk_size chunk_overlap : Z) :
  is_int chunk_size -> is_int chunk_overlap ->
  0 < chunk_overlap < chunk_size ->
  len text <= chunk_size ->
  split_text fuel text chunk_size chunk_overlap = Returned [text].
Proof.
  intros Hcs _ Hv Hlen. unfold split_text.
  rewrite short_circuit; [reflexivity|].
  rewrite to_size_t_id by (consts; lia). exact Hlen.
Qed.

Lemma short_text_single_chunk_witness :
  split_text 0 (str "short text") 100 20 = Returned [str "short text"].
Proof.
  apply short_text_single_chunk; concrete.
Defined.

(** ** The word-length estimator *)

Lemma count_whitespace (s : cpp_string) (n : Z) (b : bool) :
  forallb isspace s = true ->
  fst (fold_left count_step s (n, b)) = n.
Proof.
  revert b. induction s as [|c s IH]; intros b H; simpl in *; [reflexivity|].
  apply andb_prop in H. destruct H as [Hc Hs]. rewrite Hc. apply IH, Hs.
Qed.

Lemma count_bounds (s : cpp_string) (n : Z) (b : bool) :
  0 <= n -> n + len s < 2 ^ 64 ->
  n <= fst (fold_left count_step s (n, b)) <= n + len s.
Proof.
  change (2 ^ 64) with 18446744073709551616.
  revert n b. induction s as [|c s IH]; intros n b Hn Hs.
  - simpl. unfold len. simpl. lia.
  - assert (Hl : len (c :: s) = 1 + len s) by (unfold len; simpl length; lia).
    pose proof (len_nonneg s) as Hp. rewrite Hl in *. cbn [fold_left].
    remember (count_step (n, b) c) as st eqn:Est. unfold count_step in Est.
    destruct (isspace c); [|destruct b; cbn [negb] in Est]; subst st.
    + specialize (IH n false Hn). lia.
    + specialize (IH n true Hn). lia.
    + unfold size_add. rewrite to_size_t_id by (consts; lia).
      specialize (IH (n + 1) true). lia.
Qed.

Lemma len_sample (text : cpp_string) : len (sample text) = sample_size text.
Proof.
  unfold sample, substr, sample_size, len. simpl skipn.
  rewrite length_firstn. lia.
Qed.

Lemma word_count_bounds (text : cpp_string) :
  0 <= word_count text <= sample_size text /\ sample_size text <= 500.
Proof.
  unfold word_count.
  pose proof (count_bounds (sample text) 0 false) as H.
  rewrite len_sample in H. unfold sample_size in *.
  change (2 ^ 64) with 18446744073709551616 in H. lia.
Qed.

Lemma avg_word_length_bounds (text : cpp_string) :
  2 <= avg_word_length text <= 501.
Proof.
  unfold avg_word_length.
  destruct (word_count_bounds text) as [[H0 H1] H2].
  destruct (Z.ltb_spec 0 (word_count text)) as [Hpos|]; [|lia].
  assert (1 <= sample_size text / word_count text <= 500) as Hq.
  { split.
    - apply Z.div_le_lower_bound; lia.
    - apply Z.le_trans with (sample_size text); [|lia].
      apply Z.div_le_upper_bound; nia. }
  unfold int_add. rewrite !to_int_id by (consts; rewrite ?to_int_id; consts; lia).
  lia.
Qed.

(** C8.  When the sampled prefix holds white space only (or nothing), the
    estimator falls back to 6, and the word-based entry point with 10 and 2
    words is the character-based one with 60 and 12 characters. *)
Theorem whitespace_sample_default (fuel : nat) (text : cpp_string) :
  forallb isspace (sample text) = true ->
  avg_word_length text = 6 /\
  split_text_with_word_count fuel text 10 2 = split_text fuel text 60 12.
Proof.
  intros H.
  assert (Havg : avg_word_length text = 6).
  { unfold avg_word_length, word_count. rewrite count_whitespace by exact H.
    reflexivity. }
  split; [exact Havg|].
  unfold split_text_with_word_count, chunk_size_chars, chunk_overlap_chars.
  rewrite Havg. reflexivity.
Qed.

Lemma whitespace_sample_default_witness :
  avg_word_length (str "     ") = 6 /\
  split_text_with_word_count 8 (str "     ") 10 2
  = split_text 8 (str "     ") 60 12.
Proof.
  apply whitespace_sample_default. reflexivity.
Defined.

(** C9, as stated, fails: with an average word length of 2, word counts
    above 2^30 overflow the [int] products, and the character counts that
    reach [split_text] are negative. *)
Lemma word_params_overflow_counterexample :
  is_int 1073741825 /\ is_int 1073741824 /\
  0 < 1073741824 < 1073741825 /\
  avg_word_length (str "a") = 2 /\
  chunk_size_chars (str "a") 1073741825 = -2147483646 /\
  chunk_overlap_chars (str "a") 1073741824 = -2147483648 /\
  ~ (0 < chunk_overlap_chars (str "a") 1073741824
       < chunk_size_chars (str "a") 1073741825).
Proof.
  repeat split; try (consts; lia); try reflexivity.
  vm_compute. intros [H _]. discriminate H.
Qed.

(** C9, amended.  The estimate is at least 2 (and at most 501) for every
    text, and the word-based entry point hands a valid character
    configuration to [split_text] whenever the word configuration is valid
    and the product [chunk_size_words * avg_word_length] is representable as
    an [int]. *)
Theorem word_params_keep_invariant (text : cpp_string)
    (chunk_size_words chunk_overlap_words : Z) :
  0 < chunk_overlap_words < chunk_size_words ->
  chunk_size_words * avg_word_length text <= int_max ->
  2 <= avg_word_length text <= 501 /\
  0 < chunk_overlap_chars text chunk_overlap_words
    < chunk_size_chars text chunk_size_words.
Proof.
  intros Hv Hmax. pose proof (avg_word_length_bounds text) as Ha.
  split; [lia|].
  unfold chunk_overlap_chars, chunk_size_chars, int_mul.
  assert (Hlt : chunk_overlap_words * avg_word_length text
                < chunk_size_words * avg_word_length text)
    by (apply Z.mul_lt_mono_pos_r; lia).
  assert (Hpos : 0 < chunk_overlap_words * avg_word_length text)
    by (apply Z.mul_pos_pos; lia).
  rewrite !to_int_id by (consts; lia). lia.
Qed.

Lemma word_params_keep_invariant_witness :
  2 <= avg_word_length (str "two words") <= 501 /\
  0 < chunk_overlap_chars (str "two words") 2
    < chunk_size_chars (str "two words") 10.
Proof.
  apply word_params_keep_invariant; [lia | vm_compute; discriminate].
Defined.

(** ** The separator splitter *)

Lemma find_loop_step (sep : separator) (text : cpp_string) (has_splits : bool)
    (splits : list cpp_string) (start_pos : nat) :
  find_loop sep text has_splits splits start_pos =
  match find text (sep_string sep) start_pos with
  | Some next_pos =>
      find_loop sep text true
        (splits ++ [substr text (Z.of_nat start_pos)
                      (Z.of_nat next_pos - Z.of_nat start_pos)])
        (next_pos + length (sep_string sep))%nat
  | None => (has_splits, splits, start_pos)
  end.
Proof.
  funelim (find_loop sep text has_splits splits start_pos);
    match goal with E : find _ _ _ = _ |- _ => rewrite E end; reflexivity.
Qed.

(** Loop-invariant rule for the [find] loop: an invariant that survives one
    iteration holds of the final state, where no separator is left. *)
Lemma find_loop_invariant (P : bool -> list cpp_string -> nat -> Prop)
    (sep : separator) (text : cpp_string) :
  (forall has_splits splits start_pos next_pos,
      P has_splits splits start_pos ->
      find text (sep_string sep) start_pos = Some next_pos ->
      P true
        (splits ++ [substr text (Z.of_nat start_pos)
                      (Z.of_nat next_pos - Z.of_nat start_pos)])
        (next_pos + length (sep_string sep))%nat) ->
  forall has_splits splits start_pos,
    P has_splits splits start_pos ->
    exists has' splits' pos',
      find_loop sep text has_splits splits start_pos = (has', splits', pos') /\
      P has' splits' pos' /\
      find text (sep_string sep) pos' = None.
Proof.
  intros Hstep has_splits splits start_pos.
  remember (length text - start_pos)%nat as n eqn:Hn.
  revert has_splits splits start_pos Hn.
  induction n as [n IH] using lt_wf_ind. intros has_splits splits start_pos Hn HP.
  rewrite find_loop_step.
  destruct (find text (sep_string sep) start_pos) as [next_pos|] eqn:E.
  - pose proof (find_progress _ _ _ _ E) as Hprog.
    eapply IH; [|reflexivity|eapply Hstep; eassumption]. lia.
  - exists has_splits, splits, start_pos. auto.
Qed.

Lemma starts_with_split (p s : cpp_string) :
  starts_with p s = true -> s = p ++ skipn (length p) s.
Proof.
  revert s. induction p as [|a p IH]; intros [|b s]; simpl;
    try reflexivity; try discriminate.
  intros H. apply andb_prop in H. destruct H as [Hab H].
  apply Ascii.eqb_eq in Hab. subst b. f_equal. apply IH, H.
Qed.

Lemma find_in_split (p s : cpp_string) (k : nat) :
  find_in p s = Some k ->
  s = firstn k s ++ p ++ skipn (k + length p) s.
Proof.
  revert k. induction s as [|c s IH]; intros k; simpl find_in.
  - destruct (starts_with p []) eqn:E; [|discriminate].
    intros [= <-]. apply starts_with_split in E. exact E.
  - destruct (starts_with p (c :: s)) eqn:E.
    + intros [= <-]. apply starts_with_split in E. exact E.
    + destruct (find_in p s) as [j|]; simpl; [|discriminate].
      intros [= <-]. simpl. f_equal. apply IH. reflexivity.
Qed.

Lemma find_split (text p : cpp_string) (start_pos next_pos : nat) :
  find text p start_pos = Some next_pos ->
  skipn start_pos text =
  firstn (next_pos - start_pos) (skipn start_pos text)
    ++ p ++ skipn (next_pos + length p) text.
Proof.
  unfold find. destruct (Nat.ltb_spec (length text) start_pos); [discriminate|].
  destruct (find_in p (skipn start_pos text)) as [k|] eqn:E; simpl; [|discriminate].
  intros [= <-]. apply find_in_split in E.
  rewrite skipn_skipn in E.
  replace (start_pos + k - start_pos)%nat with k by lia.
  replace (start_pos + k + length p)%nat with (k + length p + start_pos)%nat by lia.
  exact E.
Qed.

Lemma substr_nat (s : cpp_string) (pos n : nat) :
  substr s (Z.of_nat pos) (Z.of_nat n - Z.of_nat pos)
  = firstn (n - pos) (skipn pos s).
Proof.
  unfold substr. rewrite Nat2Z.id. f_equal. lia.
Qed.

Lemma join_terminated (sep : cpp_string) (segments : list cpp_string) :
  segments <> [] -> join sep segments ++ sep = terminated sep segments.
Proof.
  induction segments as [|s rest IH]; [congruence|]. intros _.
  destruct rest as [|t rest].
  - unfold terminated. simpl. rewrite app_nil_r. reflexivity.
  - change (join sep (s :: t :: rest)) with (s ++ sep ++ join sep (t :: rest)).
    change (terminated sep (s :: t :: rest))
      with ((s ++ sep) ++ terminated sep (t :: rest)).
    rewrite <- IH by discriminate. rewrite <- !app_assoc. reflexivity.
Qed.

Lemma join_snoc (sep : cpp_string) (segments : list cpp_string)
    (last : cpp_string) :
  join sep (segments ++ [last]) = terminated sep segments ++ last.
Proof.
  induction segments as [|s rest IH]; [reflexivity|].
  change (terminated sep (s :: rest)) with ((s ++ sep) ++ terminated sep rest).
  rewrite <- !app_assoc, <- IH.
  destruct rest; reflexivity.
Qed.

Lemma find_loop_spec (sep : separator) (text : cpp_string) :
  exists has_splits splits start_pos,
    find_loop sep text false [] 0%nat = (has_splits, splits, start_pos) /\
    splitter_inv sep text has_splits splits start_pos /\
    find text (sep_string sep) start_pos = None.
Proof.
  apply (find_loop_invariant (splitter_inv sep text)).
  - intros has_splits splits start_pos next_pos (Hle & Hcat & Hhas & Hlen) E.
    pose proof (find_progress _ _ _ _ E) as Hprog.
    pose proof (find_split _ _ _ _ E) as Hsplit.
    rewrite substr_nat. repeat split.
    + lia.
    + unfold terminated in *. rewrite map_app, concat_app. cbn [map concat].
      rewrite app_nil_r, <- !app_assoc, <- Hsplit. exact Hcat.
    + intros _. destruct splits; discriminate.
    + apply Forall_app. split; [exact Hlen|]. constructor; [|constructor].
      rewrite length_firstn, length_skipn. lia.
  - repeat split; simpl; try lia; try congruence. constructor.
Qed.

(** The flag is set exactly when the separator occurs in the text. *)
Lemma has_splits_iff (sep : separator) (text : cpp_string) :
  fst (find_splits sep text) = true
  <-> find text (sep_string sep) 0 <> None.
Proof.
  assert (Hfst : forall r : bool * list cpp_string * nat,
             fst (let '(has_splits, splits, start_pos) := r in
                  if has_splits && (Z.of_nat start_pos <? len text)
                  then (has_splits,
                        splits ++ [substr_from text (Z.of_nat start_pos)])
                  else (has_splits, splits))
             = fst (fst r)).
  { intros [[h sp] pos]. cbn [fst]. destruct (h && _); reflexivity. }
  unfold find_splits. rewrite Hfst, find_loop_step.
  destruct (find text (sep_string sep) 0) as [next_pos|] eqn:E.
  - split; [discriminate|]. intros _.
    destruct (find_loop_invariant (fun h _ _ => h = true) sep text
                ltac:(reflexivity) true
                ([] ++ [substr text (Z.of_nat 0)
                          (Z.of_nat next_pos - Z.of_nat 0)])
                (next_pos + length (sep_string sep))%nat eq_refl)
      as (h & sp & pos & -> & -> & _).
    reflexivity.
  - cbn [fst]. split; [discriminate | congruence].
Qed.

Lemma find_at_zero (s p : cpp_string) : find s p 0 = find_in p s.
Proof.
  unfold find. simpl. destruct (find_in p s); reflexivity.
Qed.

Lemma find_in_line_feed (s : cpp_string) :
  In newline s -> find_in [newline] s <> None.
Proof.
  induction s as [|c s IH]; [intros []|].
  intros [<-|Hin]; cbn [find_in starts_with].
  - rewrite Ascii.eqb_refl. discriminate.
  - destruct (Ascii.eqb newline c && true); [discriminate|].
    destruct (find_in [newline] s); [discriminate|]. exact (IH Hin).
Qed.

(** A separator tier whose separator occurs throws when the reserve is
    refused. *)
Lemma tier_throws (sep : separator) (text : cpp_string)
    (chunk_size chunk_overlap : Z) (chunks0 : list cpp_string) :
  fst (find_splits sep text) = true ->
  int_add chunk_size chunk_overlap < 0 ->
  run_tier sep text chunk_size chunk_overlap chunks0 = None.
Proof.
  intros Hhas Hneg. unfold run_tier, merge_block.
  destruct (find_splits sep text) as [has_splits splits].
  cbn [fst] in Hhas. subst has_splits.
  rewrite (proj2 (reserve_throws_iff chunk_size chunk_overlap) Hneg).
  reflexivity.
Qed.

Lemma tier_skipped (sep : separator) (text : cpp_string)
    (chunk_size chunk_overlap : Z) (chunks0 : list cpp_string) :
  fst (find_splits sep text) = false ->
  run_tier sep text chunk_size chunk_overlap chunks0 = Some (false, chunks0).
Proof.
  intros Hhas. unfold run_tier.
  destruct (find_splits sep text) as [has_splits splits].
  cbn [fst] in Hhas. subst has_splits. reflexivity.
Qed.

(** With a negative [int] sum, a text longer than the converted
    [chunk_size] that holds a line feed ends in [std::length_error], in the
    first tier whose separator occurs. *)
Lemma negative_sum_throws (fuel : nat) (text : cpp_string)
    (chunk_size chunk_overlap : Z) :
  to_size_t chunk_size < len text -> In newline text ->
  int_add chunk_size chunk_overlap < 0 ->
  split_text fuel text chunk_size chunk_overlap = LengthError /\
  (split_text_traced fuel text chunk_size chunk_overlap
     = (ParagraphTier, LengthError) \/
   split_text_traced fuel text chunk_size chunk_overlap
     = (LineTier, LengthError)).
Proof.
  intros Hlong Hnl Hneg.
  assert (H : split_text_traced fuel text chunk_size chunk_overlap
              = (ParagraphTier, LengthError) \/
              split_text_traced fuel text chunk_size chunk_overlap
              = (LineTier, LengthError)).
  { unfold split_text_traced.
    destruct (Z.leb_spec (len text) (to_size_t chunk_size)); [lia|].
    destruct (fst (find_splits double_newline text)) eqn:E2.
    - rewrite tier_throws by assumption. left. reflexivity.
    - rewrite tier_skipped by assumption.
      rewrite tier_throws; [right; reflexivity | | exact Hneg].
      apply has_splits_iff. rewrite find_at_zero.
      apply find_in_line_feed, Hnl. }
  split; [|exact H]. unfold split_text. destruct H as [-> | ->]; reflexivity.
Qed.

(** C2, as stated, fails: a text that ends with the separator loses it.  The
    loop consumes the final separator and the guard [start_pos <
    text.length()] then pushes no last segment. *)
Lemma rejoin_counterexample :
  find_splits double_newline (str "a" ++ nl2) = (true, [str "a"]) /\
  join (sep_string double_newline)
       (snd (find_splits double_newline (str "a" ++ nl2)))
  <> str "a" ++ nl2.
Proof.
  split; [reflexivity|]. vm_compute. discriminate.
Qed.

(** C2, amended.  For a text in which the separator occurs, the segments are
    in order and, rejoined with the separator, give back the text exactly
    when something is left after the last separator consumed; when nothing
    is left (the text ends with a separator the loop consumed), they give
    back the text without that one trailing separator.  Consecutive
    separators yield empty segments and lose nothing. *)
Theorem segments_rejoin (sep : separator) (text : cpp_string) :
  fst (find_splits sep text) = true ->
  (remainder sep text <> [] ->
   join (sep_string sep) (snd (find_splits sep text)) = text) /\
  (remainder sep text = [] ->
   join (sep_string sep) (snd (find_splits sep text)) ++ sep_string sep = text).
Proof.
  destruct (find_loop_spec sep text)
    as (has_splits & splits & start_pos & Eloop & (Hle & Hcat & Hhas & _) & _).
  unfold find_splits, remainder, substr_from, len. rewrite Eloop, Nat2Z.id.
  destruct (Z.ltb_spec (Z.of_nat start_pos) (Z.of_nat (length text))) as [Hlt|Hge].
  - destruct has_splits; simpl; [|discriminate]. intros _. split.
    + intros _. rewrite join_snoc. exact Hcat.
    + intros Hnil. apply (f_equal (@length ascii)) in Hnil.
      rewrite length_skipn in Hnil. simpl in Hnil. lia.
  - rewrite andb_false_r. simpl. intros Htrue. split.
    + intros Hrem. exfalso. apply Hrem. apply skipn_all2. lia.
    + intros _. rewrite join_terminated by (apply Hhas, Htrue).
      rewrite skipn_all2 in Hcat by lia. rewrite app_nil_r in Hcat. exact Hcat.
Qed.

Lemma segments_rejoin_witness :
  join (sep_string double_newline)
       (snd (find_splits double_newline (str "a" ++ nl2 ++ nl2 ++ str "b")))
  = str "a" ++ nl2 ++ nl2 ++ str "b".
Proof.
  apply (segments_rejoin double_newline); [reflexivity|].
  vm_compute. discriminate.
Defined.

(** ** The greedy merger *)

Lemma merge_split_nothing (sep : separator) (chunk_size chunk_overlap : Z)
    (chunks : list cpp_string) (current_chunk split : cpp_string) :
  merge_split sep chunk_size chunk_overlap (chunks, current_chunk) split
    = ([], [])
  <-> chunks = [] /\ current_chunk = [] /\ split = [].
Proof.
  unfold merge_split.
  destruct current_chunk as [|c cur].
  - simpl. split.
    + intros [= -> ->]. auto.
    + intros (-> & _ & ->). reflexivity.
  - cbn [is_empty negb andb].
    destruct (to_size_t chunk_size <? _).
    + split.
      * intros [= H _]. destruct chunks; discriminate.
      * intros (_ & H & _). discriminate.
    + cbn [is_empty]. split.
      * intros [= _ H].
      * intros (_ & H & _). discriminate.
Qed.

Lemma merge_fold_nothing (sep : separator) (chunk_size chunk_overlap : Z)
    (splits : list cpp_string) (st : list cpp_string * cpp_string) :
  fold_left (merge_split sep chunk_size chunk_overlap) splits st = ([], [])
  <-> st = ([], []) /\ Forall (fun s => s = []) splits.
Proof.
  revert st. induction splits as [|split splits IH]; intros st; cbn [fold_left].
  - split; [intros ->; auto | intros [-> _]; reflexivity].
  - rewrite IH. destruct st as [chunks cur]. rewrite merge_split_nothing.
    split.
    + intros [(-> & -> & ->) H]. auto.
    + intros [[= -> ->] H]. inversion H; subst. auto.
Qed.

Lemma merge_splits_nil_iff (sep : separator) (chunk_size chunk_overlap : Z)
    (splits : list cpp_string) :
  merge_splits sep chunk_size chunk_overlap [] splits = []
  <-> Forall (fun s => s = []) splits.
Proof.
  unfold merge_splits.
  pose proof (merge_fold_nothing sep chunk_size chunk_overlap splits ([], []))
    as H.
  destruct (fold_left (merge_split sep chunk_size chunk_overlap) splits ([], []))
    as [chunks cur].
  destruct cur as [|c cur]; cbn [is_empty].
  - split.
    + intros ->. apply H. reflexivity.
    + intros HF. destruct H as [_ H]. specialize (H (conj eq_refl HF)).
      congruence.
  - split.
    + intros E. destruct chunks; discriminate.
    + intros HF. destruct H as [_ H]. specialize (H (conj eq_refl HF)).
      discriminate.
Qed.

(** C5, as stated, fails: the separator splitter can produce segments that
    are all empty, and the merge block then emits no chunk. *)
Lemma merge_empty_counterexample :
  find_splits double_newline (nl2 ++ nl2) = (true, [[]; []]) /\
  [[]; []] <> @nil cpp_string /\
  merge_splits double_newline 3 1 [] [[]; []] = [] /\
  merge_block double_newline 3 1 [] [[]; []] = Some [].
Proof.
  split; [reflexivity|]. split; [discriminate|]. split; reflexivity.
Qed.

(** C5, amended.  For every separator tier, whenever the reserve heading the
    merge block is served (the [int] sum [chunk_size + chunk_overlap] is not
    negative), the block started on no chunks returns a chunk sequence, and
    that sequence is empty exactly when every segment is empty (in
    particular when there is none); as soon as one segment is non-empty it
    emits at least one chunk. *)
Theorem merge_empty_iff (sep : separator) (chunk_size chunk_overlap : Z)
    (splits : list cpp_string) :
  0 <= int_add chunk_size chunk_overlap ->
  exists chunks,
    merge_block sep chunk_size chunk_overlap [] splits = Some chunks /\
    (chunks = [] <-> Forall (fun s => s = []) splits).
Proof.
  intros Hsum. unfold merge_block.
  rewrite reserve_served by exact Hsum.
  eexists. split; [reflexivity|]. apply merge_splits_nil_iff.
Qed.

Lemma merge_empty_iff_witness :
  exists chunks,
    merge_block double_newline 10 5 [] [[]; str "Para1"; []] = Some chunks /\
    (chunks = [] <-> Forall (fun s => s = []) [[]; str "Para1"; []]).
Proof.
  apply merge_empty_iff. vm_compute. discriminate.
Defined.

(** ** The fixed-width loop *)

Lemma size_add_id (a b : Z) : 0 <= a + b < 2 ^ 64 -> size_add a b = a + b.
Proof. apply to_size_t_id. Qed.

Lemma size_sub_id (a b : Z) : 0 <= a - b < 2 ^ 64 -> size_sub a b = a - b.
Proof. apply to_size_t_id. Qed.

Lemma fallback_exit (fuel : nat) (text : cpp_string) (chunk_size stride i : Z) :
  len text <= i ->
  fallback_loop (S fuel) text chunk_size stride i = Some [].
Proof.
  intros H. simpl. destruct (Z.ltb_spec i (len text)); [lia | reflexivity].
Qed.

(** With a stride that cannot wrap the index, the distance to the end of the
    text shrinks at every iteration. *)
Lemma fallback_loop_small_stride (text : cpp_string) (chunk_size stride : Z) :
  0 < stride -> len text + stride <= 2 ^ 64 ->
  forall (fuel : nat) (i : Z),
    0 <= i -> (Z.to_nat (len text - i) < fuel)%nat ->
    exists chunks, fallback_loop fuel text chunk_size stride i = Some chunks.
Proof.
  intros Hs Hw. induction fuel as [|fuel IH]; intros i Hi Hfuel; [lia|].
  cbn [fallback_loop].
  destruct (Z.ltb_spec i (len text)) as [Hlt|]; [|eauto].
  change (2 ^ 64) with 18446744073709551616 in Hw.
  rewrite (size_add_id i stride)
    by (change (2 ^ 64) with 18446744073709551616; lia).
  destruct (IH (i + stride)) as [chunks ->]; [lia | lia | eauto].
Qed.

(** A stride beyond the end of the text leaves the loop after one chunk. *)
Lemma fallback_loop_big_stride (text : cpp_string) (chunk_size stride : Z) :
  len text <= stride < 2 ^ 64 ->
  forall fuel : nat, (2 <= fuel)%nat ->
    exists chunks, fallback_loop fuel text chunk_size stride 0 = Some chunks.
Proof.
  intros Hs fuel Hfuel.
  destruct fuel as [|[|fuel]]; try lia.
  cbn [fallback_loop].
  destruct (Z.ltb_spec 0 (len text)); [|eauto].
  rewrite (size_add_id 0 stride) by lia. simpl Z.add.
  destruct (Z.ltb_spec stride (len text)); [lia | eauto].
Qed.

(** With a zero stride the loop never leaves a non-empty text: no budget is
    enough. *)
Lemma fallback_loop_zero_stride (text : cpp_string) (chunk_size : Z) :
  0 < len text ->
  forall fuel : nat, fallback_loop fuel text chunk_size 0 0 = None.
Proof.
  intros Hl. induction fuel as [|fuel IH]; [reflexivity|].
  cbn [fallback_loop].
  destruct (Z.ltb_spec 0 (len text)); [|lia].
  change (size_add 0 0) with 0. rewrite IH. reflexivity.
Qed.

Lemma stride_cases (chunk_size chunk_overlap : Z) :
  is_int chunk_size -> is_int chunk_overlap -> chunk_overlap < chunk_size ->
  let stride := to_size_t (int_sub chunk_size chunk_overlap) in
  (chunk_size - chunk_overlap <= int_max /\
   stride = chunk_size - chunk_overlap) \/
  (int_max < chunk_size - chunk_overlap /\
   stride = 2 ^ 64 + (chunk_size - chunk_overlap) - 2 ^ 32).
Proof.
  intros Hcs Hco Hlt. cbv zeta. unfold int_sub.
  destruct (Z.le_gt_cases (chunk_size - chunk_overlap) int_max) as [Hle|Hgt].
  - left. split; [exact Hle|].
    rewrite to_int_id by (consts; lia). apply to_size_t_id. consts. lia.
  - right. split; [lia|].
    assert (E : to_int (chunk_size - chunk_overlap)
                = chunk_size - chunk_overlap - 2 ^ 32).
    { unfold to_int. consts.
      rewrite <- (Z.mod_unique (chunk_size - chunk_overlap + 2147483648)
                 4294967296 1
                 (chunk_size - chunk_overlap + 2147483648 - 4294967296));
        lia. }
    rewrite E, to_size_t_neg by (consts; lia). consts. lia.
Qed.

(** C7.  Under [chunk_overlap < chunk_size] the fixed-width loop, started at
    index 0 with the stride the source computes, terminates on every text:
    some budget is enough, and so is every larger one. *)
Theorem fallback_terminates (text : cpp_string) (chunk_size chunk_overlap : Z) :
  is_int chunk_size -> is_int chunk_overlap -> fits text ->
  chunk_overlap < chunk_size ->
  exists n : nat, forall fuel : nat, (n <= fuel)%nat ->
    exists chunks,
      fallback_loop fuel text chunk_size
        (to_size_t (int_sub chunk_size chunk_overlap)) 0 = Some chunks.
Proof.
  intros Hcs Hco Hfit Hlt. exists (S (S (length text))). intros fuel Hfuel.
  pose proof (len_nonneg text) as Hl.
  destruct (stride_cases chunk_size chunk_overlap Hcs Hco Hlt) as [[Hle ->]|[Hgt ->]].
  - apply fallback_loop_small_stride; consts; try lia.
    unfold len. lia.
  - apply fallback_loop_big_stride; consts; lia.
Qed.

Lemma fallback_terminates_witness :
  exists n : nat, forall fuel : nat, (n <= fuel)%nat ->
    exists chunks,
      fallback_loop fuel (str "abcdefghij") 4
        (to_size_t (int_sub 4 3)) 0 = Some chunks.
Proof.
  apply fallback_terminates; concrete.
Defined.

(** ** The fixed-width loop under a valid configuration *)

Lemma firstn_skipn_range {A : Type} (l : list A) (a b : nat) :
  (a <= b)%nat -> firstn (b - a) (skipn a l) ++ skipn b l = skipn a l.
Proof.
  intros H. rewrite <- (firstn_skipn (b - a) (skipn a l)) at 2.
  rewrite skipn_skipn. do 2 f_equal. lia.
Qed.

Section ValidConfig.

Variable text : cpp_string.
Variables chunk_size chunk_overlap : Z.
Hypothesis size_is_int : is_int chunk_size.
Hypothesis text_fits : fits text.
Hypothesis valid : 0 < chunk_overlap < chunk_size.

Let stride : Z := chunk_size - chunk_overlap.

Lemma valid_stride : to_size_t (int_sub chunk_size chunk_overlap) = stride.
Proof.
  unfold int_sub. rewrite to_int_id by (consts; lia).
  apply to_size_t_id. consts. lia.
Qed.

Lemma valid_size : to_size_t chunk_size = chunk_size.
Proof. apply to_size_t_id. consts. lia. Qed.

Lemma valid_overlap : to_size_t chunk_overlap = chunk_overlap.
Proof. apply to_size_t_id. consts. lia. Qed.

Lemma fallback_iter (fuel : nat) (i : Z) :
  0 <= i < len text ->
  fallback_loop (S fuel) text chunk_size stride i =
  match fallback_loop fuel text chunk_size stride (i + stride) with
  | Some chunks =>
      Some (firstn (Z.to_nat (Z.min (i + chunk_size) (len text) - i))
                   (skipn (Z.to_nat i) text) :: chunks)
  | None => None
  end.
Proof.
  intros Hi. cbn [fallback_loop]. unfold stride in *.
  destruct (Z.ltb_spec i (len text)); [|lia].
  rewrite valid_size.
  rewrite !size_add_id, size_sub_id by (consts; lia).
  reflexivity.
Qed.

Lemma fallback_total (fuel : nat) :
  (length text < fuel)%nat ->
  exists chunks, fallback_loop fuel text chunk_size stride 0 = Some chunks.
Proof.
  intros Hfuel. unfold stride in *.
  apply fallback_loop_small_stride; consts; unfold len in *; lia.
Qed.

Lemma fallback_chunks_bounded (fuel : nat) :
  forall (i : Z) (chunks : list cpp_string),
    0 <= i ->
    fallback_loop fuel text chunk_size stride i = Some chunks ->
    Forall (fun c => len c <= chunk_size) chunks.
Proof.
  induction fuel as [|fuel IH]; intros i chunks Hi; [discriminate|].
  destruct (Z.lt_ge_cases i (len text)) as [Hlt|Hge].
  - rewrite fallback_iter by lia.
    destruct (fallback_loop fuel text chunk_size stride (i + stride))
      as [rest|] eqn:E; [|discriminate].
    intros [= <-]. constructor.
    + unfold len. rewrite length_firstn. lia.
    + apply (IH (i + stride)); [unfold stride in *; lia | exact E].
  - rewrite fallback_exit by lia. intros [= <-]. constructor.
Qed.

Lemma fallback_chunks_nonempty (fuel : nat) (chunks : list cpp_string) :
  0 < len text ->
  fallback_loop fuel text chunk_size stride 0 = Some chunks ->
  chunks <> [].
Proof.
  intros Hpos. destruct fuel as [|fuel]; [discriminate|].
  rewrite fallback_iter by lia.
  destruct (fallback_loop fuel text chunk_size stride (0 + stride));
    [|discriminate].
  intros [= <-]. discriminate.
Qed.

(** Dropping the leading [chunk_overlap] characters of the chunks produced
    from index [i] on leaves the text from [i + chunk_overlap] on. *)
Lemma fallback_strip (fuel : nat) :
  forall (i : Z) (chunks : list cpp_string),
    0 <= i ->
    fallback_loop fuel text chunk_size stride i = Some chunks ->
    concat (map (skipn (Z.to_nat chunk_overlap)) chunks)
    = skipn (Z.to_nat (Z.min (i + chunk_overlap) (len text))) text.
Proof.
  induction fuel as [|fuel IH]; intros i chunks Hi; [discriminate|].
  destruct (Z.lt_ge_cases i (len text)) as [Hlt|Hge].
  - rewrite fallback_iter by lia.
    destruct (fallback_loop fuel text chunk_size stride (i + stride))
      as [rest|] eqn:E; [|discriminate].
    intros [= <-]. cbn [map concat].
    rewrite (IH (i + stride) rest) by (unfold stride in *; lia || exact E).
    replace (i + stride + chunk_overlap) with (i + chunk_size)
      by (unfold stride in *; lia).
    rewrite skipn_firstn_comm, skipn_skipn.
    destruct (Z.le_gt_cases (i + chunk_overlap) (len text)) as [Hin|Hout].
    + rewrite (Z.min_l (i + chunk_overlap)) by lia.
      replace (Z.to_nat chunk_overlap + Z.to_nat i)%nat
        with (Z.to_nat (i + chunk_overlap)) by lia.
      replace (Z.to_nat (Z.min (i + chunk_size) (len text) - i)
               - Z.to_nat chunk_overlap)%nat
        with (Z.to_nat (Z.min (i + chunk_size) (len text))
              - Z.to_nat (i + chunk_overlap))%nat by lia.
      apply firstn_skipn_range. lia.
    + rewrite !Z.min_r by lia.
      rewrite (skipn_all2 text (n := Z.to_nat (len text)))
        by (unfold len; lia).
      rewrite (skipn_all2 text) by (unfold len in *; lia).
      rewrite firstn_nil. reflexivity.
  - rewrite fallback_exit by lia. intros [= <-].
    rewrite Z.min_r by lia. simpl.
    symmetry. apply skipn_all2. unfold len. lia.
Qed.

End ValidConfig.

(** ** Texts without line breaks *)

Lemma find_in_no_line_break (sep : separator) (s : cpp_string) :
  no_line_break s -> find_in (sep_string sep) s = None.
Proof.
  unfold no_line_break. induction s as [|c s IH]; intros H.
  - destruct sep; reflexivity.
  - simpl in H. apply andb_prop in H. destruct H as [Hc Hs].
    apply negb_true_iff in Hc.
    assert (E : starts_with (sep_string sep) (c :: s) = false)
      by (destruct sep; simpl; rewrite Hc; reflexivity).
    simpl find_in. rewrite E, (IH Hs). reflexivity.
Qed.

Lemma run_tier_no_line_break (sep : separator) (text : cpp_string)
    (chunk_size chunk_overlap : Z) (chunks : list cpp_string) :
  no_line_break text ->
  run_tier sep text chunk_size chunk_overlap chunks = Some (false, chunks).
Proof.
  intros H. unfold run_tier, find_splits. rewrite find_loop_step.
  unfold find. simpl skipn. rewrite (find_in_no_line_break sep text H).
  reflexivity.
Qed.

(** C3.  On a text without line breaks and longer than [chunk_size], under a
    valid configuration, [split_text] answers from the fixed-width tier, and
    its chunks, each one after the first without its leading
    [chunk_overlap] characters, concatenate to the text. *)
Theorem fallback_coverage (text : cpp_string) (chunk_size chunk_overlap : Z) :
  is_int chunk_size -> is_int chunk_overlap -> fits text ->
  no_line_break text ->
  0 < chunk_overlap < chunk_size -> chunk_size < len text ->
  exists n : nat, forall fuel : nat, (n <= fuel)%nat ->
    exists chunks,
      split_text_traced fuel text chunk_size chunk_overlap
        = (FallbackTier, Returned chunks) /\
      split_text fuel text chunk_size chunk_overlap = Returned chunks /\
      strip_concat chunk_overlap chunks = text.
Proof.
  intros Hcs Hco Hfit Hnl Hv Hlen.
  exists (S (length text)). intros fuel Hfuel.
  pose proof (valid_stride chunk_size chunk_overlap Hcs Hv) as Hstride.
  destruct (fallback_total text chunk_size chunk_overlap Hcs Hfit Hv fuel)
    as [chunks Hloop]; [lia|].
  exists chunks.
  assert (Htr : split_text_traced fuel text chunk_size chunk_overlap
                = (FallbackTier, Returned chunks)).
  { unfold split_text_traced.
    rewrite (valid_size chunk_size chunk_overlap Hcs Hv).
    destruct (Z.leb_spec (len text) chunk_size); [lia|].
    rewrite !run_tier_no_line_break by exact Hnl.
    unfold fallback. rewrite Hstride.
    destruct (Z.eqb_spec (chunk_size - chunk_overlap) 0); [lia|].
    rewrite Hloop. reflexivity. }
  split; [exact Htr|]. split; [unfold split_text; rewrite Htr; reflexivity|].
  destruct fuel as [|fuel]; [lia|].
  rewrite (fallback_iter text chunk_size chunk_overlap Hcs Hfit Hv) in Hloop
    by lia.
  destruct (fallback_loop fuel text chunk_size (chunk_size - chunk_overlap)
              (0 + (chunk_size - chunk_overlap))) as [rest|] eqn:E;
    [|discriminate].
  injection Hloop as <-. unfold strip_concat.
  rewrite (fallback_strip text chunk_size chunk_overlap Hcs Hfit Hv fuel
             (0 + (chunk_size - chunk_overlap)) rest)
    by (lia || exact E).
  replace (Z.min chunk_size (len text) - 0) with chunk_size by lia.
  replace (Z.min (0 + (chunk_size - chunk_overlap) + chunk_overlap) (len text))
    with chunk_size by lia.
  apply firstn_skipn.
Qed.

Lemma fallback_coverage_witness :
  exists n : nat, forall fuel : nat, (n <= fuel)%nat ->
    exists chunks,
      split_text_traced fuel (str "abcdefghij") 4 3
        = (FallbackTier, Returned chunks) /\
      split_text fuel (str "abcdefghij") 4 3 = Returned chunks /\
      strip_concat 3 chunks = str "abcdefghij".
Proof.
  apply fallback_coverage; try concrete. reflexivity.
Defined.

(** ** The orchestrator *)

Lemma run_tier_done (sep : separator) (text : cpp_string)
    (chunk_size chunk_overlap : Z) (chunks0 chunks : list cpp_string) :
  run_tier sep text chunk_size chunk_overlap chunks0 = Some (true, chunks) ->
  chunks <> [].
Proof.
  unfold run_tier, merge_block.
  destruct (find_splits sep text) as [[|] splits]; [|discriminate].
  destruct (reserve_throws chunk_size chunk_overlap); [discriminate|].
  intros [= H <-]. apply negb_true_iff, is_empty_false in H. exact H.
Qed.

Lemma run_tier_not_done (sep : separator) (text : cpp_string)
    (chunk_size chunk_overlap : Z) (chunks : list cpp_string) :
  run_tier sep text chunk_size chunk_overlap [] = Some (false, chunks) ->
  chunks = [].
Proof.
  unfold run_tier, merge_block.
  destruct (find_splits sep text) as [[|] splits].
  - destruct (reserve_throws chunk_size chunk_overlap); [discriminate|].
    intros [= H <-]. apply negb_false_iff, is_empty_true in H. exact H.
  - intros [= <-]. reflexivity.
Qed.

(** A separator tier does not throw when the reserve is served. *)
Lemma run_tier_served (sep : separator) (text : cpp_string)
    (chunk_size chunk_overlap : Z) (chunks0 : list cpp_string) :
  0 <= int_add chunk_size chunk_overlap ->
  exists done chunks,
    run_tier sep text chunk_size chunk_overlap chunks0 = Some (done, chunks).
Proof.
  intros Hsum. unfold run_tier, merge_block.
  rewrite reserve_served by exact Hsum.
  destruct (find_splits sep text) as [[|] splits]; eauto.
Qed.

(** Under a valid configuration whose sum is an [int], a call returns, from
    one of the four exits, once the budget exceeds the length of the
    text. *)
Lemma split_text_returns (text : cpp_string) (chunk_size chunk_overlap : Z)
    (fuel : nat) :
  is_int chunk_size -> fits text -> 0 < chunk_overlap < chunk_size ->
  chunk_size + chunk_overlap <= int_max ->
  (length text < fuel)%nat ->
  exists chunks,
    split_text fuel text chunk_size chunk_overlap = Returned chunks /\
    ((len text <= chunk_size /\ chunks = [text]) \/
     (chunk_size < len text /\
      run_tier double_newline text chunk_size chunk_overlap []
        = Some (true, chunks)) \/
     (chunk_size < len text /\
      run_tier double_newline text chunk_size chunk_overlap []
        = Some (false, []) /\
      run_tier single_newline text chunk_size chunk_overlap []
        = Some (true, chunks)) \/
     (chunk_size < len text /\
      fallback_loop fuel text chunk_size (chunk_size - chunk_overlap) 0
        = Some chunks)).
Proof.
  intros Hcs Hfit Hv Hsum Hfuel. unfold split_text, split_text_traced.
  pose proof (valid_sum chunk_size chunk_overlap Hcs Hv Hsum) as Hserved.
  rewrite (valid_size chunk_size chunk_overlap Hcs Hv).
  destruct (Z.leb_spec (len text) chunk_size) as [Hshort|Hlong].
  { exists [text]. split; [reflexivity | left; split; [lia | reflexivity]]. }
  destruct (run_tier_served double_newline text chunk_size chunk_overlap []
              Hserved) as (done1 & chunks1 & E1).
  rewrite E1. destruct done1.
  { exists chunks1.
    split; [reflexivity | right; left; split; [lia | reflexivity]]. }
  apply run_tier_not_done in E1 as E1'. subst chunks1.
  destruct (run_tier_served single_newline text chunk_size chunk_overlap []
              Hserved) as (done2 & chunks2 & E2).
  rewrite E2. destruct done2.
  { exists chunks2.
    split; [reflexivity | right; right; left; repeat split; assumption || lia]. }
  unfold fallback.
  rewrite (valid_stride chunk_size chunk_overlap Hcs Hv).
  destruct (Z.eqb_spec (chunk_size - chunk_overlap) 0); [lia|].
  destruct (fallback_total text chunk_size chunk_overlap Hcs Hfit Hv fuel Hfuel)
    as [chunks Hloop].
  rewrite Hloop. exists chunks.
  split; [reflexivity | right; right; right; split; [lia | reflexivity]].
Qed.

Lemma len_huge_text : len huge_text = 1073741826.
Proof.
  unfold len, huge_text. rewrite length_cons, repeat_length. lia.
Qed.

(** C10, as stated, fails: the configuration [chunk_size = 2^30 + 1],
    [chunk_overlap = 2^30] is valid, but the [int] sum handed to the reserve
    of line 111 wraps to a negative value, and a text of [2^30 + 2]
    characters with a line feed makes the call throw [std::length_error]
    instead of returning chunks. *)
Lemma nonempty_counterexample :
  is_int 1073741825 /\ is_int 1073741824 /\
  0 < 1073741824 < 1073741825 /\
  fits huge_text /\
  forall fuel : nat,
    split_text fuel huge_text 1073741825 1073741824 = LengthError.
Proof.
  split; [consts; lia|]. split; [consts; lia|]. split; [lia|].
  split; [unfold fits; rewrite len_huge_text; consts; lia|].
  intros fuel. apply negative_sum_throws.
  - rewrite len_huge_text. rewrite to_size_t_id by (consts; lia). lia.
  - left. reflexivity.
  - vm_compute. reflexivity.
Qed.

(** C10, amended.  Under a valid configuration whose sum [chunk_size +
    chunk_overlap] is representable as an [int], [split_text] returns at
    least one chunk for every text; for the empty text it returns exactly
    the empty string. *)
Theorem split_text_nonempty (text : cpp_string) (chunk_size chunk_overlap : Z) :
  is_int chunk_size -> is_int chunk_overlap -> fits text ->
  0 < chunk_overlap < chunk_size ->
  chunk_size + chunk_overlap <= int_max ->
  (exists n : nat, forall fuel : nat, (n <= fuel)%nat ->
     exists chunks,
       split_text fuel text chunk_size chunk_overlap = Returned chunks /\
       chunks <> []) /\
  (forall fuel : nat,
     split_text fuel [] chunk_size chunk_overlap = Returned [[]]).
Proof.
  intros Hcs Hco Hfit Hv Hsum. split.
  - exists (S (length text)). intros fuel Hfuel.
    destruct (split_text_returns text chunk_size chunk_overlap fuel
                Hcs Hfit Hv Hsum)
      as (chunks & Hret & Hexit); [lia|].
    exists chunks. split; [exact Hret|].
    destruct Hexit as [[_ ->]|[[_ H]|[(_ & _ & H)|[Hlong H]]]].
    + discriminate.
    + eapply run_tier_done, H.
    + eapply run_tier_done, H.
    + eapply (fallback_chunks_nonempty text chunk_size chunk_overlap);
        try eassumption.
      pose proof (len_nonneg text). lia.
  - intros fuel. unfold split_text. rewrite short_circuit; [reflexivity|].
    pose proof (to_size_t_range chunk_size). unfold len. simpl. lia.
Qed.

Lemma split_text_nonempty_witness :
  (exists n : nat, forall fuel : nat, (n <= fuel)%nat ->
     exists chunks,
       split_text fuel (str "abcdefghij") 4 3 = Returned chunks /\
       chunks <> []) /\
  (forall fuel : nat, split_text fuel [] 4 3 = Returned [[]]).
Proof.
  apply split_text_nonempty; concrete.
Defined.

(** ** Configurations outside the invariant *)

(** C1, as stated, fails: the source checks nothing.  With [chunk_overlap >=
    chunk_size], or with non-positive values, short texts come back as one
    chunk; with 100 and 150 a longer text without line breaks is handed to
    the fixed-width tier, which returns its first 100 characters. *)
Lemma config_check_counterexample :
  split_text 0 (str "abc") 100 100 = Returned [str "abc"] /\
  split_text 0 (str "abc") 100 150 = Returned [str "abc"] /\
  split_text 0 (str "abc") (-1) 0 = Returned [str "abc"] /\
  split_text 0 [] 0 0 = Returned [[]] /\
  split_text_traced 2 (repeat "x"%char 101) 100 150
  = (FallbackTier, Returned [repeat "x"%char 100]).
Proof.
  repeat split; reflexivity.
Qed.

Lemma negative_size_short_circuits (text : cpp_string) (chunk_size : Z) :
  is_int chunk_size -> fits text -> chunk_size < 0 ->
  len text <= to_size_t chunk_size.
Proof.
  intros Hcs Hfit Hneg. rewrite to_size_t_neg by (consts; lia). consts. lia.
Qed.

(** C1, amended.  [split_text] checks no configuration and raises no
    configuration error: whenever the text is no longer than the converted
    [chunk_size], which covers every negative [chunk_size], the text comes
    back as the only chunk whatever [chunk_overlap] is, [chunk_overlap >=
    chunk_size] and non-positive values included; so it does for
    [chunk_size = 100] with [chunk_overlap = 100] or [150] on a text of at
    most 100 characters. *)
Theorem no_config_check (fuel : nat) (text : cpp_string)
    (chunk_size chunk_overlap : Z) :
  is_int chunk_size -> fits text ->
  len text <= chunk_size \/ chunk_size < 0 ->
  split_text fuel text chunk_size chunk_overlap = Returned [text].
Proof.
  intros Hcs Hfit Hcase.
  unfold split_text. rewrite short_circuit; [reflexivity|].
  destruct Hcase as [Hshort|Hneg].
  - pose proof (len_nonneg text).
    rewrite to_size_t_id by (consts; lia). exact Hshort.
  - apply negative_size_short_circuits; assumption.
Qed.

Lemma no_config_check_witness :
  split_text 0 (str "abc") 100 100 = Returned [str "abc"] /\
  split_text 0 (str "abc") 100 150 = Returned [str "abc"] /\
  split_text 0 (str "abc") (-7) 3 = Returned [str "abc"].
Proof.
  split; [apply no_config_check; [concrete | concrete | left; concrete]|].
  split; [apply no_config_check; [concrete | concrete | left; concrete]|].
  apply no_config_check; [concrete | concrete | right; lia].
Defined.

(** ** Chunk sizes *)

Lemma segments_lengths (sep : separator) (text : cpp_string) :
  Forall (fun s => len s <= len text) (segments sep text).
Proof.
  destruct (find_loop_spec sep text)
    as (has_splits & splits & start_pos & Eloop & (_ & _ & _ & Hlen) & _).
  unfold segments, find_splits. rewrite Eloop.
  assert (Hz : Forall (fun s => len s <= len text) splits).
  { eapply Forall_impl; [|exact Hlen]. intros s Hs. cbv beta in Hs.
    unfold len. lia. }
  destruct (has_splits && _); cbn [snd]; [|exact Hz].
  apply Forall_app. split; [exact Hz|]. constructor; [|constructor].
  unfold substr_from, len. rewrite length_skipn. lia.
Qed.

Lemma chunk_origin_length (sep : separator) (chunk_size chunk_overlap : Z)
    (segs : list cpp_string) (c : cpp_string) (bound : Z) :
  0 <= chunk_overlap ->
  Forall (fun s => len s <= bound) segs ->
  chunk_origin sep chunk_size chunk_overlap segs c ->
  len c <= Z.max chunk_size (chunk_overlap + 2 + bound).
Proof.
  intros Hco Hsegs Hc. rewrite Forall_forall in Hsegs.
  pose proof (len_nonneg c).
  destruct Hc as [Hle|Hin|carry seg Hin Hcarry ->].
  - lia.
  - specialize (Hsegs c Hin). cbv beta in Hsegs.
    pose proof (len_nonneg c). lia.
  - specialize (Hsegs seg Hin). cbv beta in Hsegs.
    rewrite !len_app.
    assert (len (sep_string sep) <= 2) by (destruct sep; unfold len; simpl; lia).
    lia.
Qed.

Section Merger.

Variable sep : separator.
Variables chunk_size chunk_overlap : Z.
Variable segs : list cpp_string.
Hypothesis size_is_int : is_int chunk_size.
Hypothesis valid : 0 < chunk_overlap < chunk_size.
Hypothesis segs_fit : Forall (fun s => len s <= string_max_size) segs.

Let origin := chunk_origin sep chunk_size chunk_overlap segs.

(** One iteration keeps every emitted chunk and the buffer accounted for. *)
Lemma merge_split_origin (chunks : list cpp_string)
    (current_chunk split : cpp_string) :
  In split segs ->
  Forall origin chunks -> origin current_chunk ->
  let st := merge_split sep chunk_size chunk_overlap
              (chunks, current_chunk) split in
  Forall origin (fst st) /\ origin (snd st).
Proof.
  intros Hin Hchunks Hcur. unfold merge_split.
  destruct current_chunk as [|c cur].
  { cbn. split; [exact Hchunks | apply single_segment, Hin]. }
  set (current := c :: cur) in *.
  assert (Hcne : is_empty current = false) by reflexivity.
  rewrite Hcne. cbn [negb andb].
  rewrite (valid_size chunk_size chunk_overlap size_is_int valid).
  rewrite (valid_overlap chunk_size chunk_overlap size_is_int valid).
  assert (Hlc : len current <= Z.max chunk_size
                                 (chunk_overlap + 2 + string_max_size))
    by (eapply chunk_origin_length; [lia | eassumption | eassumption]).
  assert (Hls : len split <= string_max_size)
    by (rewrite Forall_forall in segs_fit; apply segs_fit, Hin).
  assert (Hsep : 1 <= len (sep_string sep) <= 2)
    by (destruct sep; unfold len; simpl; lia).
  pose proof (len_nonneg current) as Hc0. pose proof (len_nonneg split) as Hs0.
  rewrite !size_add_id by (rewrite ?size_add_id; consts; lia).
  destruct (Z.ltb_spec chunk_size
              (len current + len split + len (sep_string sep))) as [Hover|Hfit].
  - destruct (Z.ltb_spec 0 chunk_overlap) as [_|]; [|lia]. cbn [andb].
    destruct (Z.ltb_spec chunk_overlap (len current)) as [Hcarry|Hnone].
    + rewrite size_sub_id by (consts; lia).
      set (carry := substr_from current (len current - chunk_overlap)).
      assert (Hlen : len carry = chunk_overlap).
      { unfold carry, substr_from, len in *. rewrite length_skipn. lia. }
      assert (Hne : is_empty carry = false).
      { apply is_empty_false. intros E. rewrite E in Hlen.
        unfold len in Hlen. simpl in Hlen. lia. }
      cbv beta iota zeta. rewrite Hne. cbn [fst snd]. split.
      * apply Forall_app. split; [exact Hchunks|].
        constructor; [exact Hcur|constructor].
      * eapply carry_and_segment; [exact Hin | exact Hlen | reflexivity].
    + cbv beta iota zeta. cbn [is_empty fst snd]. split.
      * apply Forall_app. split; [exact Hchunks|].
        constructor; [exact Hcur|constructor].
      * apply single_segment, Hin.
  - cbv beta iota zeta. rewrite Hcne. cbn [fst snd]. split; [exact Hchunks|].
    apply within_size. rewrite !len_app. lia.
Qed.

Lemma merge_fold_origin (splits : list cpp_string) :
  incl splits segs ->
  forall (chunks : list cpp_string) (current_chunk : cpp_string),
    Forall origin chunks -> origin current_chunk ->
    let st := fold_left (merge_split sep chunk_size chunk_overlap) splits
                (chunks, current_chunk) in
    Forall origin (fst st) /\ origin (snd st).
Proof.
  induction splits as [|split splits IH]; intros Hincl chunks cur Hchunks Hcur.
  - cbn. auto.
  - cbn [fold_left].
    destruct (merge_split_origin chunks cur split) as [H1 H2];
      [apply Hincl; left; reflexivity | assumption | assumption |].
    destruct (merge_split sep chunk_size chunk_overlap (chunks, cur) split)
      as [chunks' cur'].
    apply IH; [intros x Hx; apply Hincl; right; exact Hx | exact H1 | exact H2].
Qed.

Lemma merge_splits_origin :
  Forall origin (merge_splits sep chunk_size chunk_overlap [] segs).
Proof.
  unfold merge_splits.
  assert (Hnil : origin []) by (apply within_size; unfold len; simpl; lia).
  pose proof (merge_fold_origin segs (incl_refl segs) [] []
                (Forall_nil origin) Hnil) as H.
  cbv zeta in H.
  match type of H with
  | Forall _ (fst ?st) /\ _ =>
      change (Forall origin
                (let '(chunks, current_chunk) := st in
                 if is_empty current_chunk then chunks
                 else chunks ++ [current_chunk]));
      destruct st as [chunks cur]
  end.
  destruct H as [H1 H2]. cbn [fst snd] in *.
  destruct (is_empty cur); [exact H1|].
  apply Forall_app. split; [exact H1|]. constructor; [exact H2|constructor].
Qed.

End Merger.

Lemma run_tier_chunks (sep : separator) (text : cpp_string)
    (chunk_size chunk_overlap : Z) (chunks : list cpp_string) :
  run_tier sep text chunk_size chunk_overlap [] = Some (true, chunks) ->
  chunks = merge_splits sep chunk_size chunk_overlap [] (segments sep text).
Proof.
  unfold run_tier, merge_block, segments.
  destruct (find_splits sep text) as [[|] splits]; [|discriminate].
  destruct (reserve_throws chunk_size chunk_overlap); [discriminate|].
  intros [= _ <-]. reflexivity.
Qed.

Lemma tier_origin (sep : separator) (text : cpp_string)
    (chunk_size chunk_overlap : Z) (chunks : list cpp_string) :
  is_int chunk_size -> fits text -> 0 < chunk_overlap < chunk_size ->
  run_tier sep text chunk_size chunk_overlap [] = Some (true, chunks) ->
  Forall (chunk_origin sep chunk_size chunk_overlap (segments sep text)) chunks.
Proof.
  intros Hcs Hfit Hv Hrun. apply run_tier_chunks in Hrun. subst chunks.
  apply merge_splits_origin; try assumption.
  eapply Forall_impl; [|apply segments_lengths].
  intros s Hs. cbv beta in Hs. unfold fits in Hfit. lia.
Qed.

(** C4, as stated, fails: after an emission the buffer restarts from the
    overlap carry and takes the next segment without a size check.  Three
    segments of 8 characters with [chunk_size = 10] and [chunk_overlap = 5]
    give two chunks of 15 characters, and no segment exceeds 10. *)
Lemma bounded_size_counterexample :
  split_text 0 three_paragraphs 10 5
  = Returned [str "aaaaaaaa";
              str "aaaaa" ++ nl2 ++ str "bbbbbbbb";
              str "bbbbb" ++ nl2 ++ str "cccccccc"] /\
  len (str "aaaaa" ++ nl2 ++ str "bbbbbbbb") = 15 /\
  len (str "bbbbb" ++ nl2 ++ str "cccccccc") = 15 /\
  segments double_newline three_paragraphs
  = [str "aaaaaaaa"; str "bbbbbbbb"; str "cccccccc"] /\
  Forall (fun s => len s <= 10) (segments double_newline three_paragraphs).
Proof.
  repeat split; try reflexivity.
  repeat constructor; unfold len; simpl; lia.
Qed.

(** C4, amended.  Under a valid configuration whose sum [chunk_size +
    chunk_overlap] is representable as an [int], every chunk [split_text]
    returns is within [chunk_size], or is a single segment of a separator
    tier, or is an overlap carry of exactly [chunk_overlap] characters
    followed by the separator and a single segment of that tier.  A chunk
    longer than [chunk_size] is therefore of the second kind (the segment
    itself is longer than [chunk_size]) or of the third; nothing limits how
    many there are. *)
Theorem chunk_sizes (text : cpp_string) (chunk_size chunk_overlap : Z) :
  is_int chunk_size -> is_int chunk_overlap -> fits text ->
  0 < chunk_overlap < chunk_size ->
  chunk_size + chunk_overlap <= int_max ->
  exists n : nat, forall fuel : nat, (n <= fuel)%nat ->
    exists chunks,
      split_text fuel text chunk_size chunk_overlap = Returned chunks /\
      Forall (fun c =>
                exists sep,
                  chunk_origin sep chunk_size chunk_overlap
                    (segments sep text) c) chunks.
Proof.
  intros Hcs Hco Hfit Hv Hsum. exists (S (length text)). intros fuel Hfuel.
  destruct (split_text_returns text chunk_size chunk_overlap fuel
              Hcs Hfit Hv Hsum)
    as (chunks & Hret & Hexit); [lia|].
  exists chunks. split; [exact Hret|].
  destruct Hexit as [[Hshort ->]|[[_ H]|[(_ & _ & H)|[Hlong H]]]].
  - constructor; [|constructor].
    exists double_newline. apply within_size, Hshort.
  - eapply Forall_impl;
      [|exact (tier_origin double_newline _ _ _ _ Hcs Hfit Hv H)].
    intros c Hc. exists double_newline. exact Hc.
  - eapply Forall_impl;
      [|exact (tier_origin single_newline _ _ _ _ Hcs Hfit Hv H)].
    intros c Hc. exists single_newline. exact Hc.
  - eapply Forall_impl;
      [|exact (fallback_chunks_bounded text chunk_size chunk_overlap
                 Hcs Hfit Hv fuel 0 chunks (Z.le_refl 0) H)].
    intros c Hc. exists single_newline. apply within_size, Hc.
Qed.

Lemma chunk_sizes_witness :
  exists n : nat, forall fuel : nat, (n <= fuel)%nat ->
    exists chunks,
      split_text fuel three_paragraphs 10 5 = Returned chunks /\
      Forall (fun c =>
                exists sep,
                  chunk_origin sep 10 5 (segments sep three_paragraphs) c)
             chunks.
Proof.
  apply chunk_sizes; concrete.
Defined.

(** With [chunk_size = chunk_overlap] a text longer than [chunk_size] and
    without line breaks reaches line 143, which divides by the zero stride. *)
Example equal_size_and_overlap_faults :
  split_text_traced 200 (repeat "x"%char 101) 100 100
  = (FallbackTier, DivisionByZero).
Proof. reflexivity. Qed.

(** The scenario of the specification: 1000 characters, windows of 300 with
    an overlap of 50. *)
Example fallback_scenario :
  exists chunks,
    split_text 1001 (repeat "x"%char 1000) 300 50 = Returned chunks /\
    map (@length ascii) chunks = [300; 300; 300; 250]%nat.
Proof. eexists. split; vm_compute; reflexivity. Qed.

(** * Further properties of the chunker *)

(** ** Segments *)

Lemma starts_with_firstn (p s : cpp_string) (n : nat) :
  starts_with p (firstn n s) = true -> starts_with p s = true.
Proof.
  revert s n. induction p as [|a p IH]; intros s n; [reflexivity|].
  destruct n as [|n]; destruct s as [|b s]; simpl; try discriminate.
  intros H. apply andb_prop in H. destruct H as [Hab H].
  rewrite Hab. simpl. eapply IH, H.
Qed.

Lemma find_in_nil (sep : separator) : find_in (sep_string sep) [] = None.
Proof. destruct sep; reflexivity. Qed.

(** No occurrence starts before the one [find] reports. *)
Lemma find_in_before (sep : separator) (s : cpp_string) (k : nat) :
  find_in (sep_string sep) s = Some k ->
  find_in (sep_string sep) (firstn k s) = None.
Proof.
  revert k. induction s as [|c s IH]; intros k.
  - rewrite find_in_nil. discriminate.
  - simpl find_in. destruct (starts_with (sep_string sep) (c :: s)) eqn:E.
    + intros [= <-]. apply find_in_nil.
    + destruct (find_in (sep_string sep) s) as [j|] eqn:Ej; simpl; [|discriminate].
      intros [= <-]. cbn [firstn]. simpl find_in.
      destruct (starts_with (sep_string sep) (c :: firstn j s)) eqn:E'.
      * apply (starts_with_firstn _ (c :: s) (S j)) in E'. congruence.
      * rewrite (IH j eq_refl). reflexivity.
Qed.

(** X1.  No segment of a tier contains the tier's separator: [find] on a
    segment reports [npos].  In particular the line tier's segments hold no
    line feed. *)
Theorem segments_hold_no_separator (sep : separator) (text : cpp_string) :
  Forall (fun s => find s (sep_string sep) 0 = None) (segments sep text).
Proof.
  pose (P := fun (_ : bool) (splits : list cpp_string) (pos : nat) =>
               (pos <= length text)%nat /\
               Forall (fun s => find s (sep_string sep) 0 = None) splits).
  destruct (find_loop_invariant P sep text) with
    (has_splits := false) (splits := @nil cpp_string) (start_pos := 0%nat)
    as (has' & splits' & pos' & Eloop & [Hle Hall] & Hend).
  - intros has_splits splits start_pos next_pos [Hle Hall] E.
    pose proof (find_progress _ _ _ _ E) as Hprog. split; [lia|].
    apply Forall_app. split; [exact Hall|]. constructor; [|constructor].
    rewrite substr_nat, find_at_zero. apply find_in_before.
    revert E. unfold find.
    destruct (Nat.ltb_spec (length text) start_pos); [discriminate|].
    destruct (find_in (sep_string sep) (skipn start_pos text)) as [k|];
      simpl; [|discriminate].
    intros [= <-]. f_equal. lia.
  - split; [lia | constructor].
  - unfold segments, find_splits. rewrite Eloop.
    destruct (has' && _); cbn [snd]; [|exact Hall].
    apply Forall_app. split; [exact Hall|]. constructor; [|constructor].
    rewrite find_at_zero. unfold substr_from. rewrite Nat2Z.id.
    revert Hend. unfold find.
    destruct (Nat.ltb_spec (length text) pos'); [lia|].
    destruct (find_in (sep_string sep) (skipn pos' text)); [discriminate|].
    reflexivity.
Qed.

Lemma terminated_empty (sep : cpp_string) (splits : list cpp_string) :
  Forall (fun s => s = []) splits ->
  Forall (eq newline) sep ->
  Forall (eq newline) (terminated sep splits).
Proof.
  intros Hall Hsep. unfold terminated.
  induction Hall as [|s splits -> _ IH]; [constructor|].
  cbn [map concat app]. apply Forall_app. split; assumption.
Qed.

(** A text with a character other than the line feed has a non-empty
    segment in every tier that applies. *)
Lemma some_segment_nonempty (sep : separator) (text : cpp_string) :
  fst (find_splits sep text) = true ->
  (exists c, In c text /\ c <> newline) ->
  ~ Forall (fun s => s = []) (segments sep text).
Proof.
  intros Hhas (c & Hin & Hc) Hall.
  destruct (find_loop_spec sep text)
    as (has_splits & splits & start_pos & Eloop & (Hle & Hcat & _ & _) & _).
  revert Hhas Hall. unfold segments, find_splits, len. rewrite Eloop.
  destruct (Z.ltb_spec (Z.of_nat start_pos) (Z.of_nat (length text))) as [Hlt|Hge].
  - destruct has_splits; simpl; [|discriminate]. intros _ Hall.
    apply Forall_app in Hall. destruct Hall as [_ Hall].
    inversion Hall as [|? ? Hnil _]; subst.
    apply (f_equal (@length ascii)) in Hnil.
    unfold substr_from in Hnil. rewrite Nat2Z.id, length_skipn in Hnil.
    simpl in Hnil. lia.
  - rewrite andb_false_r. simpl. intros _ Hall.
    rewrite skipn_all2, app_nil_r in Hcat by lia.
    assert (Hnl : Forall (eq newline) text).
    { rewrite <- Hcat. apply terminated_empty; [exact Hall|].
      destruct sep; repeat constructor. }
    rewrite Forall_forall in Hnl. apply Hc. symmetry. apply Hnl, Hin.
Qed.

Lemma merge_splits_some (sep : separator) (chunk_size chunk_overlap : Z)
    (splits : list cpp_string) :
  ~ Forall (fun s => s = []) splits ->
  merge_splits sep chunk_size chunk_overlap [] splits <> [].
Proof.
  intros Hsome Hnil. apply Hsome. revert Hnil. unfold merge_splits.
  pose proof (merge_fold_nothing sep chunk_size chunk_overlap splits ([], []))
    as H.
  destruct (fold_left (merge_split sep chunk_size chunk_overlap) splits ([], []))
    as [chunks cur].
  destruct cur as [|c cur]; cbn [is_empty].
  - intros ->. apply H. reflexivity.
  - intros E. destruct chunks; discriminate.
Qed.

Lemma tier_answers (sep : separator) (text : cpp_string)
    (chunk_size chunk_overlap : Z) :
  0 <= int_add chunk_size chunk_overlap ->
  fst (find_splits sep text) = true ->
  (exists c, In c text /\ c <> newline) ->
  exists chunks,
    run_tier sep text chunk_size chunk_overlap [] = Some (true, chunks) /\
    chunks <> [].
Proof.
  intros Hsum Hhas Hc.
  pose proof (some_segment_nonempty sep text Hhas Hc) as Hsome.
  apply (merge_splits_some sep chunk_size chunk_overlap) in Hsome.
  revert Hhas Hsome. unfold run_tier, merge_block, segments.
  rewrite reserve_served by exact Hsum.
  destruct (find_splits sep text) as [has_splits splits]. cbn [fst snd].
  intros -> Hsome. eexists. split; [|exact Hsome].
  apply is_empty_false in Hsome. rewrite Hsome. reflexivity.
Qed.

Lemma separator_tier_exit (fuel : nat) (text : cpp_string)
    (chunk_size chunk_overlap : Z) :
  0 <= int_add chunk_size chunk_overlap ->
  to_size_t chunk_size < len text ->
  (exists c, In c text /\ c <> newline) ->
  (find text (sep_string double_newline) 0 <> None ->
   exists chunks,
     split_text_traced fuel text chunk_size chunk_overlap
       = (ParagraphTier, Returned chunks) /\ chunks <> []) /\
  (find text (sep_string double_newline) 0 = None -> In newline text ->
   exists chunks,
     split_text_traced fuel text chunk_size chunk_overlap
       = (LineTier, Returned chunks) /\ chunks <> []).
Proof.
  intros Hsum Hlong Hc. unfold split_text_traced.
  destruct (Z.leb_spec (len text) (to_size_t chunk_size)); [lia|].
  split.
  - intros Hdouble. apply has_splits_iff in Hdouble.
    destruct (tier_answers double_newline text chunk_size chunk_overlap
                Hsum Hdouble Hc) as (chunks & -> & Hne).
    exists chunks. auto.
  - intros Hnone Hnl.
    rewrite tier_skipped
      by (destruct (fst (find_splits double_newline text)) eqn:E;
          [apply has_splits_iff in E; congruence | reflexivity]).
    assert (Hsingle : fst (find_splits single_newline text) = true).
    { apply has_splits_iff. rewrite find_at_zero.
      apply find_in_line_feed, Hnl. }
    destruct (tier_answers single_newline text chunk_size chunk_overlap
                Hsum Hsingle Hc) as (chunks & -> & Hne).
    exists chunks. auto.
Qed.

(** X2.  Which tier answers.  Take parameters whose [int] sum is not
    negative, so that the reserve of the merge block is served.  A text
    longer than the converted [chunk_size] that holds a character other than
    the line feed is answered by the paragraph tier when it contains a
    double line feed, and by the line tier when it contains a line feed but
    no double one; the answer is never empty. *)
Theorem separator_tier_answers (fuel : nat) (text : cpp_string)
    (chunk_size chunk_overlap : Z) :
  0 <= int_add chunk_size chunk_overlap ->
  to_size_t chunk_size < len text ->
  (exists c, In c text /\ c <> newline) ->
  (find text (sep_string double_newline) 0 <> None ->
   exists chunks,
     split_text_traced fuel text chunk_size chunk_overlap
       = (ParagraphTier, Returned chunks) /\ chunks <> []) /\
  (find text (sep_string double_newline) 0 = None -> In newline text ->
   exists chunks,
     split_text_traced fuel text chunk_size chunk_overlap
       = (LineTier, Returned chunks) /\ chunks <> []).
Proof.
  exact (separator_tier_exit fuel text chunk_size chunk_overlap).
Qed.

Lemma separator_tier_answers_witness :
  (exists chunks,
     split_text_traced 0
       (str "Para1" ++ nl2 ++ str "Para2" ++ nl2 ++ str "Para3") 12 0
     = (ParagraphTier, Returned chunks) /\ chunks <> []) /\
  (exists chunks,
     split_text_traced 0 (str "line1" ++ [newline] ++ str "line2") 7 9
     = (LineTier, Returned chunks) /\ chunks <> []).
Proof.
  split.
  - apply (separator_tier_answers 0
             (str "Para1" ++ nl2 ++ str "Para2" ++ nl2 ++ str "Para3") 12 0).
    + vm_compute. discriminate.
    + vm_compute. reflexivity.
    + exists "P"%char. split; [left; reflexivity | discriminate].
    + vm_compute. discriminate.
  - apply (separator_tier_answers 0
             (str "line1" ++ [newline] ++ str "line2") 7 9).
    + vm_compute. discriminate.
    + vm_compute. reflexivity.
    + exists "l"%char. split; [left; reflexivity | discriminate].
    + vm_compute. reflexivity.
    + simpl. tauto.
Defined.

(** ** Termination and faults of [split_text] *)

Lemma stride_zero_iff (chunk_size chunk_overlap : Z) :
  is_int chunk_size -> is_int chunk_overlap ->
  to_size_t (int_sub chunk_size chunk_overlap) = 0
  <-> chunk_size = chunk_overlap.
Proof.
  intros Hcs Hco. split.
  - intros H. unfold int_sub in H.
    pose proof (to_int_range (chunk_size - chunk_overlap)) as Hr.
    assert (Hz : to_int (chunk_size - chunk_overlap) = 0).
    { destruct (Z.lt_ge_cases (to_int (chunk_size - chunk_overlap)) 0).
      - rewrite to_size_t_neg in H by (consts; lia). consts. lia.
      - rewrite to_size_t_id in H by (consts; lia). exact H. }
    unfold to_int in Hz. consts.
    assert (Hm : (chunk_size - chunk_overlap + 2147483648) mod 4294967296
                 = 2147483648) by lia.
    pose proof (Z.div_mod (chunk_size - chunk_overlap + 2147483648) 4294967296
                  ltac:(lia)) as Hdm.
    rewrite Hm in Hdm. lia.
  - intros ->. unfold int_sub. rewrite Z.sub_diag. reflexivity.
Qed.

Lemma fallback_loop_any_stride (text : cpp_string) (chunk_size stride : Z)
    (fuel : nat) :
  fits text -> 0 < stride < 2 ^ 64 ->
  (S (S (length text)) <= fuel)%nat ->
  exists chunks, fallback_loop fuel text chunk_size stride 0 = Some chunks.
Proof.
  intros Hfit Hs Hfuel. pose proof (len_nonneg text) as Hl.
  destruct (Z.lt_ge_cases stride (2 ^ 63)) as [Hsmall|Hbig].
  - apply fallback_loop_small_stride; consts;
      change (2 ^ 63) with 9223372036854775808 in *; try lia.
    unfold len. lia.
  - apply fallback_loop_big_stride; consts;
      change (2 ^ 63) with 9223372036854775808 in *; lia.
Qed.

Lemma run_tier_throws (sep : separator) (text : cpp_string)
    (chunk_size chunk_overlap : Z) (chunks0 : list cpp_string) :
  run_tier sep text chunk_size chunk_overlap chunks0 = None ->
  int_add chunk_size chunk_overlap < 0.
Proof.
  unfold run_tier, merge_block.
  destruct (find_splits sep text) as [[|] splits]; [|discriminate].
  destruct (reserve_throws chunk_size chunk_overlap) eqn:E; [|discriminate].
  intros _. apply reserve_throws_iff, E.
Qed.

(** X3.  [split_text] terminates on every input: with a budget of
    [len + 2] steps a call returns chunks, or stops at the division of line
    143, which happens only when [chunk_size = chunk_overlap], or throws
    [std::length_error] from the reserve of a merge block, which happens
    only when the [int] sum [chunk_size + chunk_overlap] is negative.  It
    never exhausts the budget, valid configuration or not. *)
Theorem split_text_terminates (fuel : nat) (text : cpp_string)
    (chunk_size chunk_overlap : Z) :
  is_int chunk_size -> is_int chunk_overlap -> fits text ->
  (S (S (length text)) <= fuel)%nat ->
  (exists chunks,
     split_text fuel text chunk_size chunk_overlap = Returned chunks) \/
  (split_text fuel text chunk_size chunk_overlap = DivisionByZero /\
   chunk_size = chunk_overlap) \/
  (split_text fuel text chunk_size chunk_overlap = LengthError /\
   int_add chunk_size chunk_overlap < 0).
Proof.
  intros Hcs Hco Hfit Hfuel. unfold split_text, split_text_traced.
  destruct (len text <=? to_size_t chunk_size); [left; eexists; reflexivity|].
  destruct (run_tier double_newline text chunk_size chunk_overlap [])
    as [[[|] chunks1]|] eqn:E1.
  - left. eexists. reflexivity.
  - destruct (run_tier single_newline text chunk_size chunk_overlap chunks1)
      as [[[|] chunks2]|] eqn:E2.
    + left. eexists. reflexivity.
    + cbn [snd]. unfold fallback.
      destruct (Z.eqb_spec (to_size_t (int_sub chunk_size chunk_overlap)) 0)
        as [Hz|Hnz].
      * right. left. split; [reflexivity|].
        exact (proj1 (stride_zero_iff chunk_size chunk_overlap Hcs Hco) Hz).
      * left.
        destruct (fallback_loop_any_stride text chunk_size
                    (to_size_t (int_sub chunk_size chunk_overlap)) fuel Hfit)
          as [chunks ->]; [|exact Hfuel|eexists; reflexivity].
        pose proof (to_size_t_range (int_sub chunk_size chunk_overlap)). lia.
    + right. right. split; [reflexivity|]. eapply run_tier_throws, E2.
  - right. right. split; [reflexivity|]. eapply run_tier_throws, E1.
Qed.

Lemma split_text_terminates_witness :
  (exists chunks, split_text 12 (str "abcdefghij") 4 9 = Returned chunks) \/
  (split_text 12 (str "abcdefghij") 4 9 = DivisionByZero /\ 4 = 9) \/
  (split_text 12 (str "abcdefghij") 4 9 = LengthError /\ int_add 4 9 < 0).
Proof.
  apply split_text_terminates; concrete.
Defined.

(** X4.  The fault.  When [chunk_size = chunk_overlap], a text without line
    breaks and longer than [chunk_size] makes the call stop at the division
    by the zero stride, before the fixed-width loop and for every budget. *)
Theorem equal_parameters_fault (fuel : nat) (text : cpp_string)
    (chunk_size : Z) :
  is_int chunk_size -> no_line_break text ->
  to_size_t chunk_size < len text ->
  split_text_traced fuel text chunk_size chunk_size
  = (FallbackTier, DivisionByZero).
Proof.
  intros Hcs Hnl Hlong. unfold split_text_traced.
  destruct (Z.leb_spec (len text) (to_size_t chunk_size)); [lia|].
  rewrite !run_tier_no_line_break by exact Hnl.
  unfold fallback.
  rewrite (proj2 (stride_zero_iff chunk_size chunk_size Hcs Hcs) eq_refl).
  reflexivity.
Qed.

Lemma equal_parameters_fault_witness :
  split_text_traced 50 (str "abcdefghij") 4 4 = (FallbackTier, DivisionByZero).
Proof.
  apply equal_parameters_fault; [concrete | reflexivity | vm_compute; reflexivity].
Defined.

(** X5.  Silent truncation.  With [chunk_overlap > chunk_size >= 0], a text
    without line breaks and longer than [chunk_size] comes back as its first
    [chunk_size] characters only: the negative stride wraps the index past
    the end after the first chunk, and the rest of the text is dropped. *)
Theorem overlap_beyond_size_truncates (fuel : nat) (text : cpp_string)
    (chunk_size chunk_overlap : Z) :
  is_int chunk_size -> is_int chunk_overlap -> fits text ->
  no_line_break text ->
  0 <= chunk_size < chunk_overlap -> chunk_size < len text ->
  (2 <= fuel)%nat ->
  split_text_traced fuel text chunk_size chunk_overlap
  = (FallbackTier, Returned [firstn (Z.to_nat chunk_size) text]).
Proof.
  intros Hcs Hco Hfit Hnl Hv Hlong Hfuel. unfold split_text_traced.
  assert (Hsz : to_size_t chunk_size = chunk_size)
    by (apply to_size_t_id; consts; lia).
  rewrite Hsz.
  destruct (Z.leb_spec (len text) chunk_size); [lia|].
  rewrite !run_tier_no_line_break by exact Hnl.
  unfold fallback, int_sub.
  rewrite to_int_id by (consts; lia).
  rewrite to_size_t_neg by (consts; lia).
  set (stride := chunk_size - chunk_overlap + 2 ^ 64).
  assert (Hstride : len text <= stride < 2 ^ 64)
    by (unfold stride; consts; lia).
  destruct (Z.eqb_spec stride 0); [pose proof (len_nonneg text); lia|].
  destruct fuel as [|[|fuel]]; try lia.
  cbn [fallback_loop]. rewrite Hsz.
  rewrite (size_add_id 0 stride) by lia.
  rewrite (size_add_id 0 chunk_size) by (consts; lia).
  destruct (Z.ltb_spec 0 (len text)); [|lia].
  destruct (Z.ltb_spec (0 + stride) (len text)); [lia|].
  rewrite Z.min_l by lia. rewrite size_sub_id by (consts; lia).
  unfold substr. simpl skipn. do 4 f_equal. lia.
Qed.

Lemma overlap_beyond_size_truncates_witness :
  split_text_traced 2 (str "abcdefghij") 4 9
  = (FallbackTier, Returned [firstn (Z.to_nat 4) (str "abcdefghij")]).
Proof.
  apply overlap_beyond_size_truncates; try concrete. reflexivity.
Defined.

(** ** The fixed-width tier in closed form *)

Lemma firstn_min_length {A : Type} (l : list A) (n : nat) :
  firstn (Nat.min n (length l)) l = firstn n l.
Proof.
  destruct (Nat.le_ge_cases n (length l)) as [H|H].
  - rewrite Nat.min_l by exact H. reflexivity.
  - rewrite Nat.min_r by exact H. rewrite firstn_all, firstn_all2 by exact H.
    reflexivity.
Qed.

Section Windows.

Variable text : cpp_string.
Variables chunk_size chunk_overlap : Z.
Hypothesis size_is_int : is_int chunk_size.
Hypothesis text_fits : fits text.
Hypothesis overlap_in_range : 0 <= chunk_overlap < chunk_size.

Let stride : Z := chunk_size - chunk_overlap.

Lemma window_stride : to_size_t (int_sub chunk_size chunk_overlap) = stride.
Proof.
  unfold int_sub. rewrite to_int_id by (consts; lia).
  apply to_size_t_id. unfold stride. consts. lia.
Qed.

(** One iteration: the chunk pushed at index [i] is [substr(i, chunk_size)]
    and the index advances by the stride, without wrap-around. *)
Lemma window_iter (fuel : nat) (i : Z) :
  0 <= i < len text ->
  fallback_loop (S fuel) text chunk_size stride i =
  match fallback_loop fuel text chunk_size stride (i + stride) with
  | Some chunks => Some (substr text i chunk_size :: chunks)
  | None => None
  end.
Proof.
  intros Hi. cbn [fallback_loop]. unfold stride in *.
  destruct (Z.ltb_spec i (len text)); [|lia].
  rewrite (to_size_t_id chunk_size) by (consts; lia).
  rewrite !size_add_id, size_sub_id by (consts; lia).
  replace (substr text i (Z.min (i + chunk_size) (len text) - i))
    with (substr text i chunk_size); [reflexivity|].
  unfold substr.
  rewrite <- (firstn_min_length _ (Z.to_nat chunk_size)).
  f_equal. rewrite length_skipn. unfold len. lia.
Qed.

Lemma windows_from (fuel : nat) :
  forall (k : nat) (chunks : list cpp_string),
    fallback_loop fuel text chunk_size stride (Z.of_nat k * stride)
      = Some chunks ->
    chunks = map (window text chunk_size stride)
               (seq k (window_count text stride - k)).
Proof.
  assert (Hs : 0 < stride) by (unfold stride; lia).
  pose proof (len_nonneg text) as Hl.
  induction fuel as [|fuel IH]; intros k chunks; [discriminate|].
  assert (Hk : 0 <= Z.of_nat k * stride) by nia.
  destruct (Z.lt_ge_cases (Z.of_nat k * stride) (len text)) as [Hlt|Hge].
  - rewrite window_iter by lia.
    replace (Z.of_nat k * stride + stride) with (Z.of_nat (S k) * stride)
      by lia.
    destruct (fallback_loop fuel text chunk_size stride
                (Z.of_nat (S k) * stride)) as [rest|] eqn:E; [|discriminate].
    intros [= <-]. rewrite (IH (S k) rest E).
    assert (Hcount : (k < window_count text stride)%nat).
    { unfold window_count.
      assert (Z.of_nat k + 1 <= (len text + stride - 1) / stride); [|lia].
      apply Z.div_le_lower_bound; lia. }
    replace (window_count text stride - k)%nat
      with (S (window_count text stride - S k)) by lia.
    reflexivity.
  - rewrite fallback_exit by lia. intros [= <-].
    assert (Hcount : (window_count text stride <= k)%nat).
    { unfold window_count.
      assert ((len text + stride - 1) / stride < Z.of_nat k + 1); [|lia].
      apply Z.div_lt_upper_bound; lia. }
    replace (window_count text stride - k)%nat with 0%nat by lia.
    reflexivity.
Qed.

Lemma windows_total (fuel : nat) :
  (length text < fuel)%nat ->
  fallback_loop fuel text chunk_size stride 0
  = Some (map (window text chunk_size stride)
            (seq 0 (window_count text stride))).
Proof.
  intros Hfuel.
  destruct (fallback_loop_small_stride text chunk_size stride) with
    (fuel := fuel) (i := 0) as [chunks Hloop];
    try (unfold stride; consts; unfold len in *; lia).
  rewrite Hloop. f_equal.
  rewrite (windows_from fuel 0 chunks) by exact Hloop.
  rewrite Nat.sub_0_r. reflexivity.
Qed.

(** Consecutive windows share [chunk_overlap] characters as long as the
    earlier one is not cut by the end of the text. *)
Lemma windows_overlap (k : nat) :
  Z.of_nat k * stride + chunk_size <= len text ->
  firstn (Z.to_nat chunk_overlap) (window text chunk_size stride (S k))
  = skipn (Z.to_nat stride) (window text chunk_size stride k).
Proof.
  intros Hfull. unfold window, substr.
  assert (Hs : 0 < stride) by (unfold stride; lia).
  assert (Hk : 0 <= Z.of_nat k * stride) by nia.
  rewrite firstn_firstn, skipn_firstn_comm, skipn_skipn.
  replace (Nat.min (Z.to_nat chunk_overlap) (Z.to_nat chunk_size))
    with (Z.to_nat chunk_overlap) by lia.
  replace (Z.to_nat chunk_size - Z.to_nat stride)%nat
    with (Z.to_nat chunk_overlap) by (unfold stride; lia).
  replace (Z.to_nat (Z.of_nat (S k) * stride))
    with (Z.to_nat stride + Z.to_nat (Z.of_nat k * stride))%nat by lia.
  reflexivity.
Qed.

End Windows.

Lemma fixed_width_exit (fuel : nat) (text : cpp_string)
    (chunk_size chunk_overlap : Z) :
  is_int chunk_size -> no_line_break text ->
  0 <= chunk_overlap < chunk_size -> chunk_size < len text ->
  split_text_traced fuel text chunk_size chunk_overlap
  = (FallbackTier,
     match fallback_loop fuel text chunk_size (chunk_size - chunk_overlap) 0
     with
     | Some chunks => Returned chunks
     | None => OutOfFuel
     end).
Proof.
  intros Hcs Hnl Hv Hlong. unfold split_text_traced.
  rewrite (to_size_t_id chunk_size) by (consts; lia).
  destruct (Z.leb_spec (len text) chunk_size); [lia|].
  rewrite !run_tier_no_line_break by exact Hnl.
  unfold fallback. rewrite (window_stride chunk_size chunk_overlap Hcs Hv).
  destruct (Z.eqb_spec (chunk_size - chunk_overlap) 0); [lia | reflexivity].
Qed.

(** X6.  The fixed-width tier in closed form.  For a text without line
    breaks and longer than [chunk_size], with [0 <= chunk_overlap <
    chunk_size], [split_text] returns the windows [text[k * stride, k *
    stride + chunk_size)] cut at the end of the text, for [k] from 0 up to
    the number of strides that start inside the text ([len / stride] rounded
    up), where [stride = chunk_size - chunk_overlap]. *)
Theorem fixed_width_chunks (fuel : nat) (text : cpp_string)
    (chunk_size chunk_overlap : Z) :
  is_int chunk_size -> fits text -> no_line_break text ->
  0 <= chunk_overlap < chunk_size -> chunk_size < len text ->
  (length text < fuel)%nat ->
  split_text fuel text chunk_size chunk_overlap
  = Returned (map (window text chunk_size (chunk_size - chunk_overlap))
                (seq 0 (window_count text (chunk_size - chunk_overlap)))).
Proof.
  intros Hcs Hfit Hnl Hv Hlong Hfuel. unfold split_text.
  rewrite fixed_width_exit by assumption. cbn [snd].
  rewrite (windows_total text chunk_size chunk_overlap Hcs Hfit Hv fuel Hfuel).
  reflexivity.
Qed.

Lemma fixed_width_chunks_witness :
  split_text 11 (str "abcdefghij") 4 1
  = Returned (map (window (str "abcdefghij") 4 (4 - 1))
                (seq 0 (window_count (str "abcdefghij") (4 - 1)))).
Proof.
  apply fixed_width_chunks; try concrete. reflexivity.
Defined.

Lemma nth_window (text : cpp_string) (chunk_size stride : Z) (n k : nat) :
  (k < n)%nat ->
  nth k (map (window text chunk_size stride) (seq 0 n)) []
  = window text chunk_size stride k.
Proof.
  intros Hk.
  rewrite (nth_indep _ [] (window text chunk_size stride 0))
    by (rewrite length_map, length_seq; exact Hk).
  rewrite map_nth, seq_nth by exact Hk. reflexivity.
Qed.

(** X7.  Overlap of the fixed-width chunks.  Under the conditions of the
    closed form, whenever chunk [k] is a full window (it ends inside the
    text) and a chunk [k + 1] exists, the first [chunk_overlap] characters
    of chunk [k + 1] are the characters of chunk [k] after its first
    [chunk_size - chunk_overlap], that is its last [chunk_overlap] ones. *)
Theorem fixed_width_overlap (fuel : nat) (text : cpp_string)
    (chunk_size chunk_overlap : Z) :
  is_int chunk_size -> fits text -> no_line_break text ->
  0 <= chunk_overlap < chunk_size -> chunk_size < len text ->
  (length text < fuel)%nat ->
  exists chunks,
    split_text fuel text chunk_size chunk_overlap = Returned chunks /\
    forall k : nat,
      (S k < length chunks)%nat ->
      Z.of_nat k * (chunk_size - chunk_overlap) + chunk_size <= len text ->
      length (nth k chunks []) = Z.to_nat chunk_size /\
      firstn (Z.to_nat chunk_overlap) (nth (S k) chunks [])
      = skipn (Z.to_nat (chunk_size - chunk_overlap)) (nth k chunks []).
Proof.
  intros Hcs Hfit Hnl Hv Hlong Hfuel. eexists. split.
  - unfold split_text. rewrite fixed_width_exit by assumption. cbn [snd].
    rewrite (windows_total text chunk_size chunk_overlap Hcs Hfit Hv fuel Hfuel).
    reflexivity.
  - intros k Hk Hfull. rewrite length_map, length_seq in Hk.
    rewrite !nth_window by lia. split.
    + unfold window, substr. rewrite length_firstn, length_skipn.
      unfold len in *. nia.
    + apply windows_overlap; assumption.
Qed.

Lemma fixed_width_overlap_witness :
  exists chunks,
    split_text 1001 (repeat "x"%char 1000) 300 50 = Returned chunks /\
    forall k : nat,
      (S k < length chunks)%nat ->
      Z.of_nat k * (300 - 50) + 300 <= len (repeat "x"%char 1000) ->
      length (nth k chunks []) = Z.to_nat 300 /\
      firstn (Z.to_nat 50) (nth (S k) chunks [])
      = skipn (Z.to_nat (300 - 50)) (nth k chunks []).
Proof.
  apply fixed_width_overlap;
    try (consts; unfold len; rewrite ?repeat_length; lia).
  vm_compute. reflexivity.
Defined.

Lemma zero_overlap_concat (text : cpp_string) (chunk_size : Z) (fuel : nat) :
  is_int chunk_size -> fits text -> 0 < chunk_size ->
  forall (i : Z) (chunks : list cpp_string),
    0 <= i ->
    fallback_loop fuel text chunk_size (chunk_size - 0) i = Some chunks ->
    concat chunks = skipn (Z.to_nat i) text.
Proof.
  intros Hcs Hfit Hpos.
  induction fuel as [|fuel IH]; intros i chunks Hi; [discriminate|].
  destruct (Z.lt_ge_cases i (len text)) as [Hlt|Hge].
  - rewrite (window_iter text chunk_size 0 Hcs Hfit) by lia.
    destruct (fallback_loop fuel text chunk_size (chunk_size - 0)
                (i + (chunk_size - 0))) as [rest|] eqn:E; [|discriminate].
    intros [= <-]. cbn [concat].
    rewrite (IH (i + (chunk_size - 0)) rest) by (lia || exact E).
    unfold substr.
    replace (Z.to_nat (i + (chunk_size - 0)))
      with (Z.to_nat chunk_size + Z.to_nat i)%nat by lia.
    rewrite <- skipn_skipn. apply firstn_skipn.
  - rewrite fallback_exit by lia. intros [= <-].
    symmetry. apply skipn_all2. unfold len in *. lia.
Qed.

(** X8.  Without overlap the fixed-width chunks partition the text: for
    [chunk_overlap = 0], a text without line breaks and longer than
    [chunk_size] is returned as chunks whose concatenation is the text. *)
Theorem zero_overlap_partitions (fuel : nat) (text : cpp_string)
    (chunk_size : Z) :
  is_int chunk_size -> fits text -> no_line_break text ->
  0 < chunk_size < len text ->
  (length text < fuel)%nat ->
  exists chunks,
    split_text fuel text chunk_size 0 = Returned chunks /\
    concat chunks = text.
Proof.
  intros Hcs Hfit Hnl Hv Hfuel.
  assert (Hv0 : 0 <= 0 < chunk_size) by lia.
  destruct (fallback_loop_small_stride text chunk_size (chunk_size - 0)) with
    (fuel := fuel) (i := 0) as [chunks Hloop];
    try (consts; unfold len in *; lia).
  exists chunks. split.
  - unfold split_text. rewrite fixed_width_exit by (assumption || lia).
    rewrite Hloop. reflexivity.
  - apply (zero_overlap_concat text chunk_size fuel Hcs Hfit (proj1 Hv) 0 chunks
             (Z.le_refl 0) Hloop).
Qed.

Lemma zero_overlap_partitions_witness :
  exists chunks,
    split_text 11 (str "abcdefghij") 4 0 = Returned chunks /\
    concat chunks = str "abcdefghij".
Proof.
  apply zero_overlap_partitions; try concrete. reflexivity.
Defined.

(** ** The merger: what the chunks keep of the segments *)

Lemma join_snoc_nonempty (sep : cpp_string) (l : list cpp_string)
    (x : cpp_string) :
  l <> [] -> join sep (l ++ [x]) = join sep l ++ sep ++ x.
Proof.
  intros Hl. rewrite join_snoc, <- join_terminated by exact Hl.
  rewrite <- app_assoc. reflexivity.
Qed.

Lemma merge_split_keeps (sep : separator) (chunk_size chunk_overlap : Z)
    (done : list cpp_string) (st : list cpp_string * cpp_string)
    (split : cpp_string) :
  chunk_overlap <= 0 -> split <> [] ->
  keeps sep done st ->
  keeps sep (done ++ [split]) (merge_split sep chunk_size chunk_overlap st split).
Proof.
  intros Hco Hsplit Hst. right.
  split; [destruct done; discriminate|].
  destruct st as [chunks cur]. unfold merge_split.
  destruct Hst as [[-> [= -> ->]]|(Hdone & Hcur & Hjoin)]; cbn [fst snd] in *.
  - cbn. split; [exact Hsplit | reflexivity].
  - assert (Hne : is_empty cur = false) by (apply is_empty_false, Hcur).
    assert (Hno : (0 <? chunk_overlap) = false) by (apply Z.ltb_ge, Hco).
    rewrite Hne, Hno. cbn [negb andb].
    destruct (to_size_t chunk_size <? _); cbn [is_empty fst snd].
    + split; [exact Hsplit|].
      rewrite join_snoc_nonempty by (destruct chunks; discriminate).
      rewrite Hjoin. symmetry. apply join_snoc_nonempty, Hdone.
    + rewrite Hne. cbn [fst snd].
      split; [destruct cur; [congruence | discriminate]|].
      rewrite join_snoc. rewrite join_snoc in Hjoin.
      rewrite join_snoc_nonempty by exact Hdone.
      rewrite <- Hjoin, <- !app_assoc. reflexivity.
Qed.

Lemma merge_fold_keeps (sep : separator) (chunk_size chunk_overlap : Z)
    (splits : list cpp_string) :
  chunk_overlap <= 0 -> Forall (fun s => s <> []) splits ->
  forall (done : list cpp_string) (st : list cpp_string * cpp_string),
    keeps sep done st ->
    keeps sep (done ++ splits)
      (fold_left (merge_split sep chunk_size chunk_overlap) splits st).
Proof.
  intros Hco Hall. induction Hall as [|split splits Hsplit _ IH];
    intros done st Hst; cbn [fold_left].
  - rewrite app_nil_r. exact Hst.
  - replace (done ++ split :: splits) with ((done ++ [split]) ++ splits)
      by (rewrite <- app_assoc; reflexivity).
    apply IH, merge_split_keeps; assumption.
Qed.

Lemma merge_splits_keeps (sep : separator) (chunk_size chunk_overlap : Z)
    (splits : list cpp_string) :
  chunk_overlap <= 0 -> Forall (fun s => s <> []) splits ->
  join (sep_string sep) (merge_splits sep chunk_size chunk_overlap [] splits)
  = join (sep_string sep) splits.
Proof.
  intros Hco Hall.
  pose proof (merge_fold_keeps sep chunk_size chunk_overlap splits Hco Hall
                [] ([], []) (or_introl (conj eq_refl eq_refl))) as H.
  cbn [app] in H. unfold merge_splits.
  match type of H with
  | keeps _ _ ?st =>
      change (join (sep_string sep)
                (let '(chunks, current_chunk) := st in
                 if is_empty current_chunk then chunks
                 else chunks ++ [current_chunk])
              = join (sep_string sep) splits);
      destruct st as [chunks cur]
  end.
  destruct H as [[-> [= -> ->]]|(_ & Hcur & Hjoin)]; cbn [fst snd] in *.
  - reflexivity.
  - apply is_empty_false in Hcur. rewrite Hcur. exact Hjoin.
Qed.

(** X9.  Nothing is lost or repeated without overlap: when [chunk_overlap
    <= 0], the [int] sum [chunk_size + chunk_overlap] is not negative (the
    reserve of the merge block is served) and no segment is empty, the merge
    block returns chunks which, rejoined with the separator, are the
    segments rejoined with the separator. *)
Theorem merge_keeps_segments (sep : separator) (chunk_size chunk_overlap : Z)
    (splits : list cpp_string) :
  chunk_overlap <= 0 -> 0 <= int_add chunk_size chunk_overlap ->
  Forall (fun s => s <> []) splits ->
  exists chunks,
    merge_block sep chunk_size chunk_overlap [] splits = Some chunks /\
    join (sep_string sep) chunks = join (sep_string sep) splits.
Proof.
  intros Hco Hsum Hall. unfold merge_block.
  rewrite reserve_served by exact Hsum.
  eexists. split; [reflexivity|]. apply merge_splits_keeps; assumption.
Qed.

Lemma merge_keeps_segments_witness :
  exists chunks,
    merge_block double_newline 10 0 []
      [str "aaaaaaaa"; str "bbb"; str "cc"; str "dddddddddddd"] = Some chunks /\
    join (sep_string double_newline) chunks
    = join (sep_string double_newline)
        [str "aaaaaaaa"; str "bbb"; str "cc"; str "dddddddddddd"].
Proof.
  apply merge_keeps_segments; [lia | vm_compute; discriminate |].
  repeat constructor; discriminate.
Defined.

(** ** The merger: the overlap between consecutive chunks *)

Lemma chained_snoc {A : Type} (R : A -> A -> Prop) (l : list A) (x : A) :
  chained R l ->
  (forall l' prev, l = l' ++ [prev] -> R prev x) ->
  chained R (l ++ [x]).
Proof.
  intros Hl. induction Hl as [|a|a b l Hab Hl IH]; intros Hlast.
  - constructor.
  - cbn. constructor; [apply (Hlast []); reflexivity | constructor].
  - cbn [app]. constructor; [exact Hab|]. apply IH.
    intros l' prev E. apply (Hlast (a :: l')). rewrite E. reflexivity.
Qed.

Lemma chained_nth {A : Type} (R : A -> A -> Prop) (l : list A) (d : A) :
  chained R l ->
  forall k : nat, (S k < length l)%nat -> R (nth k l d) (nth (S k) l d).
Proof.
  intros Hl. induction Hl as [|a|a b l Hab Hl IH]; intros k Hk;
    cbn [length] in Hk; try lia.
  destruct k as [|k]; [exact Hab|].
  apply (IH k). cbn [length]. lia.
Qed.

Section Overlap.

Variable sep : separator.
Variables chunk_size chunk_overlap : Z.
Variable segs : list cpp_string.
Hypothesis size_is_int : is_int chunk_size.
Hypothesis valid : 0 < chunk_overlap < chunk_size.
Hypothesis segs_fit : Forall (fun s => len s <= string_max_size) segs.

Let origin := chunk_origin sep chunk_size chunk_overlap segs.
Let link := carries sep chunk_overlap.

(** The buffer opens with the carry of the last emitted chunk. *)
Let buffer_linked (st : list cpp_string * cpp_string) : Prop :=
  forall l prev, fst st = l ++ [prev] -> link prev (snd st).

Lemma merge_split_linked (chunks : list cpp_string)
    (current_chunk split : cpp_string) :
  origin current_chunk ->
  chained link chunks -> buffer_linked (chunks, current_chunk) ->
  let st := merge_split sep chunk_size chunk_overlap
              (chunks, current_chunk) split in
  chained link (fst st) /\ buffer_linked st.
Proof.
  intros Hcur Hch Hbuf. unfold merge_split, buffer_linked in *.
  cbn [fst snd] in Hbuf.
  destruct current_chunk as [|c cur].
  { cbn. split; [exact Hch|]. intros l prev E Hlong.
    destruct (Hbuf l prev E Hlong) as [rest Hrest].
    destruct (skipn _ prev); destruct sep; discriminate. }
  set (current := c :: cur) in *.
  assert (Hcne : is_empty current = false) by reflexivity.
  rewrite Hcne. cbn [negb andb].
  rewrite (valid_overlap chunk_size chunk_overlap size_is_int valid).
  assert (Hlc : len current <= Z.max chunk_size
                                 (chunk_overlap + 2 + string_max_size))
    by (eapply chunk_origin_length; [lia | eassumption | eassumption]).
  pose proof (len_nonneg current) as Hc0.
  destruct (to_size_t chunk_size <? _).
  - destruct (Z.ltb_spec 0 chunk_overlap) as [_|]; [|lia]. cbn [andb].
    assert (Hnew : chained link (chunks ++ [current]))
      by (apply chained_snoc; assumption).
    destruct (Z.ltb_spec chunk_overlap (len current)) as [Hcarry|Hnone].
    + rewrite size_sub_id by (consts; lia).
      set (carry := substr_from current (len current - chunk_overlap)).
      assert (Hne : is_empty carry = false).
      { apply is_empty_false. intros E. apply (f_equal (@length ascii)) in E.
        unfold carry, substr_from, len in *. rewrite length_skipn in E.
        simpl length in E. lia. }
      cbv beta iota zeta. rewrite Hne. cbn [fst snd].
      split; [exact Hnew|]. intros l prev E _.
      apply app_inj_tail in E. destruct E as [_ <-].
      exists split. reflexivity.
    + cbv beta iota zeta. cbn [is_empty fst snd].
      split; [exact Hnew|]. intros l prev E Hlong.
      apply app_inj_tail in E. destruct E as [_ <-]. lia.
  - cbv beta iota zeta. rewrite Hcne. cbn [fst snd].
    split; [exact Hch|]. intros l prev E Hlong.
    destruct (Hbuf l prev E Hlong) as [rest ->].
    exists (rest ++ sep_string sep ++ split).
    rewrite <- !app_assoc. reflexivity.
Qed.

Lemma merge_fold_linked (splits : list cpp_string) :
  incl splits segs ->
  forall (chunks : list cpp_string) (current_chunk : cpp_string),
    Forall origin chunks -> origin current_chunk ->
    chained link chunks -> buffer_linked (chunks, current_chunk) ->
    let st := fold_left (merge_split sep chunk_size chunk_overlap) splits
                (chunks, current_chunk) in
    chained link (fst st) /\ buffer_linked st.
Proof.
  induction splits as [|split splits IH];
    intros Hincl chunks cur Hchunks Hcur Hch Hbuf.
  - cbn. auto.
  - cbn [fold_left].
    destruct (merge_split_origin sep chunk_size chunk_overlap segs
                size_is_int valid segs_fit chunks cur split) as [H1 H2];
      [apply Hincl; left; reflexivity | assumption | assumption |].
    destruct (merge_split_linked chunks cur split Hcur Hch Hbuf) as [H3 H4].
    destruct (merge_split sep chunk_size chunk_overlap (chunks, cur) split)
      as [chunks' cur'].
    apply IH; [intros x Hx; apply Hincl; right; exact Hx | | | | ]; assumption.
Qed.

Lemma merge_splits_linked :
  chained link (merge_splits sep chunk_size chunk_overlap [] segs).
Proof.
  unfold merge_splits.
  assert (Hnil : origin []) by (apply within_size; unfold len; simpl; lia).
  assert (Hbuf : buffer_linked ([], []))
    by (intros l prev E; destruct l; discriminate).
  pose proof (merge_fold_linked segs (incl_refl segs) [] []
                (Forall_nil origin) Hnil (chained_nil link) Hbuf) as H.
  cbv zeta in H.
  match type of H with
  | chained _ (fst ?st) /\ _ =>
      change (chained link
                (let '(chunks, current_chunk) := st in
                 if is_empty current_chunk then chunks
                 else chunks ++ [current_chunk]));
      destruct st as [chunks cur]
  end.
  destruct H as [H1 H2]. cbn [fst snd] in *.
  destruct (is_empty cur); [exact H1|].
  apply chained_snoc; assumption.
Qed.

End Overlap.

(** X10.  Overlap of the merged chunks.  Under a valid configuration, in the
    chunks the merger makes of segments that fit in a string, every chunk
    that follows a chunk longer than [chunk_overlap] opens with the last
    [chunk_overlap] characters of that chunk, followed by the separator. *)
Theorem merged_chunks_overlap (sep : separator) (chunk_size chunk_overlap : Z)
    (segs : list cpp_string) (k : nat) :
  is_int chunk_size -> 0 < chunk_overlap < chunk_size ->
  Forall (fun s => len s <= string_max_size) segs ->
  let chunks := merge_splits sep chunk_size chunk_overlap [] segs in
  (S k < length chunks)%nat ->
  chunk_overlap < len (nth k chunks []) ->
  exists rest,
    nth (S k) chunks []
    = skipn (Z.to_nat (len (nth k chunks []) - chunk_overlap)) (nth k chunks [])
        ++ sep_string sep ++ rest.
Proof.
  intros Hcs Hv Hfit chunks Hk Hlong.
  pose proof (merge_splits_linked sep chunk_size chunk_overlap segs
                Hcs Hv Hfit) as Hch.
  exact (chained_nth _ _ [] Hch k Hk Hlong).
Qed.

Lemma merged_chunks_overlap_witness :
  exists rest,
    nth 1 (merge_splits double_newline 10 5 []
             [str "aaaaaaaa"; str "bbbbbbbb"; str "cccccccc"]) []
    = skipn (Z.to_nat (len (nth 0 (merge_splits double_newline 10 5 []
                                     [str "aaaaaaaa"; str "bbbbbbbb";
                                      str "cccccccc"]) []) - 5))
        (nth 0 (merge_splits double_newline 10 5 []
                  [str "aaaaaaaa"; str "bbbbbbbb"; str "cccccccc"]) [])
        ++ sep_string double_newline ++ rest.
Proof.
  apply (merged_chunks_overlap double_newline 10 5
           [str "aaaaaaaa"; str "bbbbbbbb"; str "cccccccc"] 0).
  - concrete.
  - lia.
  - repeat constructor; concrete.
  - vm_compute. lia.
  - vm_compute. reflexivity.
Defined.

(** * Further properties of the word-based entry point *)

Lemma sample_prefix (text : cpp_string) : sample text = firstn 500 text.
Proof.
  unfold sample, substr, sample_size, len. simpl skipn.
  replace (Z.to_nat (Z.min (Z.of_nat (length text)) 500))
    with (Nat.min 500 (length text)) by lia.
  apply firstn_min_length.
Qed.

(** X11.  Only the first 500 characters are sampled: two texts with the same
    first 500 characters get the same average word length, hence the same
    character parameters for the same word parameters. *)
Theorem estimate_reads_the_sample (text1 text2 : cpp_string)
    (chunk_size_words chunk_overlap_words : Z) :
  firstn 500 text1 = firstn 500 text2 ->
  avg_word_length text1 = avg_word_length text2 /\
  chunk_size_chars text1 chunk_size_words
    = chunk_size_chars text2 chunk_size_words /\
  chunk_overlap_chars text1 chunk_overlap_words
    = chunk_overlap_chars text2 chunk_overlap_words.
Proof.
  intros H.
  assert (Hs : sample text1 = sample text2)
    by (rewrite !sample_prefix; exact H).
  assert (Havg : avg_word_length text1 = avg_word_length text2).
  { unfold avg_word_length, word_count.
    rewrite <- !len_sample, Hs. reflexivity. }
  unfold chunk_size_chars, chunk_overlap_chars. rewrite Havg. auto.
Qed.

Lemma estimate_reads_the_sample_witness :
  avg_word_length (repeat "a"%char 500 ++ str " b c d")
    = avg_word_length (repeat "a"%char 500 ++ str "efg") /\
  chunk_size_chars (repeat "a"%char 500 ++ str " b c d") 10
    = chunk_size_chars (repeat "a"%char 500 ++ str "efg") 10 /\
  chunk_overlap_chars (repeat "a"%char 500 ++ str " b c d") 2
    = chunk_overlap_chars (repeat "a"%char 500 ++ str "efg") 2.
Proof.
  apply estimate_reads_the_sample. reflexivity.
Defined.

(** X12.  Short texts by words.  A text of at most [2 * chunk_size_words]
    characters comes back from the word-based entry point as the only chunk,
    whatever the overlap is, provided [501 * chunk_size_words] is
    representable as an [int]. *)
Theorem short_text_by_words (fuel : nat) (text : cpp_string)
    (chunk_size_words chunk_overlap_words : Z) :
  501 * chunk_size_words <= int_max ->
  len text <= 2 * chunk_size_words ->
  split_text_with_word_count fuel text chunk_size_words chunk_overlap_words
  = Returned [text].
Proof.
  intros Hmax Hlen. pose proof (avg_word_length_bounds text) as Ha.
  pose proof (len_nonneg text) as Hl.
  unfold split_text_with_word_count, split_text.
  rewrite short_circuit; [reflexivity|].
  unfold chunk_size_chars, int_mul.
  assert (Hprod : 2 * chunk_size_words
                  <= chunk_size_words * avg_word_length text
                  <= 501 * chunk_size_words) by nia.
  rewrite to_int_id by (consts; lia).
  rewrite to_size_t_id by (consts; lia). lia.
Qed.

Lemma short_text_by_words_witness :
  split_text_with_word_count 0 (str "a few short words") 10 2
  = Returned [str "a few short words"].
Proof.
  apply short_text_by_words; concrete.
Defined.

(** * The digest formatter *)

Lemma hex_repr_step (v : nat) :
  hex_repr v =
  if (v <? 16)%nat then [hex_digit v]
  else hex_repr (v / 16) ++ [hex_digit (v mod 16)].
Proof.
  funelim (hex_repr v);
    match goal with E : (_ <? _)%nat = _ |- _ => rewrite E end; reflexivity.
Qed.

(** A byte value fills its field of width two with two digits. *)
Lemma byte_field (v : nat) :
  (v < 256)%nat ->
  setw_setfill 2 "0"%char (hex_repr v)
  = [hex_digit (v / 16); hex_digit (v mod 16)].
Proof.
  intros Hv. rewrite hex_repr_step.
  destruct (Nat.ltb_spec v 16) as [Hlt|Hge].
  - rewrite Nat.div_small, Nat.mod_small by exact Hlt. reflexivity.
  - rewrite hex_repr_step.
    assert (Hq : (v / 16 < 16)%nat)
      by (apply Nat.Div0.div_lt_upper_bound; lia).
    destruct (Nat.ltb_spec (v / 16) 16); [reflexivity | lia].
Qed.

Lemma hex_stream (hash : list ascii) (ss : cpp_string) :
  fold_left hex_step hash ss =
  ss ++ concat (map (fun b => [hex_digit (nat_of_ascii b / 16);
                               hex_digit (nat_of_ascii b mod 16)]) hash).
Proof.
  revert ss. induction hash as [|b hash IH]; intros ss; cbn [fold_left map concat].
  - rewrite app_nil_r. reflexivity.
  - rewrite IH. unfold hex_step.
    rewrite byte_field by apply nat_ascii_bounded.
    rewrite <- app_assoc. reflexivity.
Qed.

Lemma hex_digit_in (d : nat) :
  (d < 16)%nat -> In (hex_digit d) (list_ascii_of_string "0123456789abcdef").
Proof.
  intros Hd. unfold hex_digit. apply nth_In. simpl. exact Hd.
Qed.

Lemma hex_value_digit (d : nat) : (d < 16)%nat -> hex_value (hex_digit d) = d.
Proof.
  intros Hd. do 16 (destruct d as [|d]; [reflexivity|]). lia.
Qed.

(** X13.  Shape of the digest string.  [sha256_hash] writes two characters
    for every byte the digest engine returns, all of them among
    [0123456789abcdef]; a 32-byte SHA-256 digest gives 64 characters. *)
Theorem digest_string_shape (digest : cpp_string -> list ascii)
    (data : cpp_string) :
  length (sha256_hash digest data) = (2 * length (digest data))%nat /\
  Forall (fun c => In c (list_ascii_of_string "0123456789abcdef"))
         (sha256_hash digest data).
Proof.
  unfold sha256_hash. rewrite hex_stream. cbn [app].
  induction (digest data) as [|b hash [IHlen IHall]]; cbn [map concat].
  - split; [reflexivity | constructor].
  - split.
    + cbn [length app]. cbn [length] in IHlen. rewrite IHlen. lia.
    + pose proof (nat_ascii_bounded b) as Hb.
      cbn [app]. constructor; [|constructor; [|exact IHall]].
      * apply hex_digit_in, Nat.Div0.div_lt_upper_bound. lia.
      * apply hex_digit_in, Nat.mod_upper_bound. lia.
Qed.

(** X14.  The digest string loses nothing: reading it back two digits a byte
    gives the digest bytes, so two inputs get the same string exactly when
    the digest engine gives them the same bytes. *)
Theorem digest_string_round_trip (digest : cpp_string -> list ascii)
    (data1 data2 : cpp_string) :
  hex_decode (sha256_hash digest data1) = digest data1 /\
  (sha256_hash digest data1 = sha256_hash digest data2
   <-> digest data1 = digest data2).
Proof.
  assert (Hrt : forall data, hex_decode (sha256_hash digest data) = digest data).
  { intros data. unfold sha256_hash. rewrite hex_stream. cbn [app].
    induction (digest data) as [|b hash IH]; [reflexivity|].
    cbn [map concat app hex_decode]. rewrite IH. f_equal.
    pose proof (nat_ascii_bounded b) as Hb.
    rewrite !hex_value_digit
      by (apply Nat.Div0.div_lt_upper_bound || apply Nat.mod_upper_bound; lia).
    rewrite <- Nat.div_mod_eq. apply ascii_nat_embedding. }
  split; [apply Hrt|]. split.
  - intros E. rewrite <- (Hrt data1), <- (Hrt data2), E. reflexivity.
  - intros E. unfold sha256_hash. rewrite E. reflexivity.
Qed.

Example digest_string_example :
  sha256_hash (fun _ => [ascii_of_nat 222; ascii_of_nat 10; ascii_of_nat 0]) []
  = str "de0a00".
Proof. reflexivity. Qed.

(** * The PDF extractor *)

Lemma page_indices_spec (doc : document) (i : Z) :
  In i (page_indices doc) <-> 0 <= i < pages doc.
Proof.
  unfold page_indices. rewrite in_map_iff. split.
  - intros (k & <- & Hk). apply in_seq in Hk. lia.
  - intros Hi. exists (Z.to_nat i). split; [lia|]. apply in_seq. lia.
Qed.

(** The page loop keeps the text empty until a page object is created, and
    leaves a line feed at its end from then on. *)
Lemma page_fold (doc : document) (indices : list Z) (all_text : cpp_string) :
  all_text = [] \/ ends_with_line_feed all_text ->
  let text := fold_left (page_step doc) indices all_text in
  (text = [] <->
   all_text = [] /\ Forall (fun i => create_page doc i = None) indices) /\
  (text = [] \/ ends_with_line_feed text).
Proof.
  revert all_text. induction indices as [|i indices IH]; intros all_text Hacc;
    cbn [fold_left].
  - split; [|exact Hacc]. split; [auto | tauto].
  - cbv zeta. remember (page_step doc all_text i) as next eqn:En.
    unfold page_step in En.
    destruct (create_page doc i) as [utf8_text|] eqn:E; subst next.
    + destruct (IH ((all_text ++ utf8_text) ++ [newline])) as [Hnil Hend].
      { right. eexists. reflexivity. }
      split; [|exact Hend]. split.
      * intros H. apply Hnil in H. destruct H as [H _].
        destruct (all_text ++ utf8_text); discriminate.
      * intros [_ H]. inversion H; congruence.
    + destruct (IH all_text Hacc) as [Hnil Hend].
      split; [|exact Hend]. rewrite Hnil. split.
      * intros [-> H]. split; [reflexivity|]. constructor; assumption.
      * intros [-> H]. inversion H; auto.
Qed.

(** X15.  What the extractor returns.  A text is returned only for a
    document that loaded and is not locked.  That text is empty exactly when
    no page object could be created for any index below the page count (in
    particular for a page count of zero or less); otherwise it ends with a
    line feed. *)
Theorem extracted_text_shape
    (load_from_raw_data : cpp_string -> Z -> option document)
    (buffer text : cpp_string) :
  extract_text_from_pdf_buffer load_from_raw_data buffer = Value text ->
  exists doc,
    load_from_raw_data buffer (to_int (len buffer)) = Some doc /\
    is_locked doc = false /\
    (text = [] <->
     forall i, 0 <= i < pages doc -> create_page doc i = None) /\
    (text <> [] -> ends_with_line_feed text).
Proof.
  unfold extract_text_from_pdf_buffer.
  destruct (load_from_raw_data buffer (to_int (len buffer))) as [doc|];
    [|discriminate].
  destruct (is_locked doc) eqn:Hlock; [discriminate|].
  intros [= <-]. exists doc. split; [reflexivity|]. split; [exact Hlock|].
  destruct (page_fold doc (page_indices doc) [] (or_introl eq_refl))
    as [Hnil Hend].
  split.
  - rewrite Hnil, Forall_forall. split.
    + intros [_ H] i Hi. apply H, page_indices_spec, Hi.
    + intros H. split; [reflexivity|]. intros i Hi.
      apply H, page_indices_spec, Hi.
  - intros Hne. destruct Hend as [Hend|Hend]; [contradiction | exact Hend].
Qed.

Lemma extracted_text_shape_witness :
  exists doc,
    demo_load (str "%PDF") (to_int (len (str "%PDF"))) = Some doc /\
    is_locked doc = false /\
    (str "Hello world" ++ [newline] = [] <->
     forall i, 0 <= i < pages doc -> create_page doc i = None) /\
    (str "Hello world" ++ [newline] <> [] ->
     ends_with_line_feed (str "Hello world" ++ [newline])).
Proof.
  apply (extracted_text_shape demo_load (str "%PDF")). reflexivity.
Defined.

(** X16.  Errors and the hash of [extract_pdf_text_and_hash].  The call
    throws exactly when the document does not load or is locked, and then
    with the message "Error extracting text from PDF: Failed to load PDF or
    PDF is encrypted"; no text and no hash come back.  When it returns, the
    hash is the one [compute_sha256] gives for the same bytes and the text
    is the one of [extract_text_from_pdf_buffer]. *)
Theorem extraction_outcome
    (load_from_raw_data : cpp_string -> Z -> option document)
    (digest : cpp_string -> list ascii) (buffer : cpp_string) :
  (extract_pdf_text_and_hash load_from_raw_data digest buffer
   = runtime_error
       (str "Error extracting text from PDF: Failed to load PDF or PDF is encrypted")
   <->
   load_from_raw_data buffer (to_int (len buffer)) = None \/
   exists doc,
     load_from_raw_data buffer (to_int (len buffer)) = Some doc /\
     is_locked doc = true) /\
  (forall what,
     extract_pdf_text_and_hash load_from_raw_data digest buffer
       = runtime_error what ->
     what = str "Error extracting text from PDF: Failed to load PDF or PDF is encrypted") /\
  (forall text hash_str,
     extract_pdf_text_and_hash load_from_raw_data digest buffer
       = Value (text, hash_str) ->
     hash_str = compute_sha256 digest buffer /\
     extract_text_from_pdf_buffer load_from_raw_data buffer = Value text).
Proof.
  unfold extract_pdf_text_and_hash, extract_text_from_pdf_buffer,
    compute_sha256.
  destruct (load_from_raw_data buffer (to_int (len buffer))) as [doc|].
  - destruct (is_locked doc) eqn:Hlock.
    + split; [|split].
      * split; [intros _; right; exists doc; auto | reflexivity].
      * intros what [= <-]. reflexivity.
      * discriminate.
    + split; [|split].
      * split; [discriminate|].
        intros [H|(doc' & [= <-] & H)]; congruence.
      * discriminate.
      * intros text hash_str [= <- <-]. auto.
  - split; [|split].
    + split; [auto | reflexivity].
    + intros what [= <-]. reflexivity.
    + discriminate.
Qed.

Lemma extraction_outcome_witness :
  extract_pdf_text_and_hash (fun _ _ => None) (fun _ => []) (str "junk")
  = runtime_error
      (str "Error extracting text from PDF: Failed to load PDF or PDF is encrypted")
  /\
  (str "00" = compute_sha256 (fun _ => ["000"%char]) (str "%PDF") /\
   extract_text_from_pdf_buffer demo_load (str "%PDF")
   = Value (str "Hello world" ++ [newline])).
Proof.
  split.
  - apply (extraction_outcome (fun _ _ => None) (fun _ => []) (str "junk")).
    left. reflexivity.
  - apply (extraction_outcome demo_load (fun _ => ["000"%char]) (str "%PDF")).
    reflexivity.
Defined.

Lemma extracted_text_end
    (load_from_raw_data : cpp_string -> Z -> option document)
    (buffer text : cpp_string) :
  extract_text_from_pdf_buffer load_from_raw_data buffer = Value text ->
  text = [] \/ ends_with_line_feed text.
Proof.
  unfold extract_text_from_pdf_buffer.
  destruct (load_from_raw_data buffer (to_int (len buffer))) as [doc|];
    [|discriminate].
  destruct (is_locked doc); [discriminate|]. intros [= <-].
  apply (page_fold doc (page_indices doc) [] (or_introl eq_refl)).
Qed.

(** X17.  Extracted text and the chunker.  Take parameters whose [int] sum
    is not negative, so that the reserve of the merge block is served.  A
    text returned by the extractor that is longer than the converted
    [chunk_size] and holds a character other than the line feed is always
    chunked by a separator tier: the call to [split_text] returns at least
    one chunk from the paragraph or the line tier, never reaches the
    fixed-width tier, and so cannot stop at the division by zero. *)
Theorem extracted_text_is_split_on_separators
    (load_from_raw_data : cpp_string -> Z -> option document)
    (buffer text : cpp_string) (fuel : nat) (chunk_size chunk_overlap : Z) :
  extract_text_from_pdf_buffer load_from_raw_data buffer = Value text ->
  (exists c, In c text /\ c <> newline) ->
  to_size_t chunk_size < len text ->
  0 <= int_add chunk_size chunk_overlap ->
  exists exit chunks,
    split_text_traced fuel text chunk_size chunk_overlap
      = (exit, Returned chunks) /\
    chunks <> [] /\
    (exit = ParagraphTier \/ exit = LineTier).
Proof.
  intros Hext Hc Hlong Hsum.
  assert (Hnl : In newline text).
  { destruct (extracted_text_end _ _ _ Hext) as [->|[body ->]].
    - destruct Hc as (c & [] & _).
    - apply in_or_app. right. left. reflexivity. }
  destruct (separator_tier_exit fuel text chunk_size chunk_overlap
              Hsum Hlong Hc) as [Hdouble Hsingle].
  destruct (find text (sep_string double_newline) 0) as [k|] eqn:E.
  - destruct Hdouble as (chunks & Htr & Hne); [discriminate|].
    exists ParagraphTier, chunks. auto.
  - destruct (Hsingle eq_refl Hnl) as (chunks & Htr & Hne).
    exists LineTier, chunks. auto.
Qed.

Lemma extracted_text_is_split_on_separators_witness :
  exists exit chunks,
    split_text_traced 0 (str "Hello world" ++ [newline]) 5 5
      = (exit, Returned chunks) /\
    chunks <> [] /\
    (exit = ParagraphTier \/ exit = LineTier).
Proof.
  apply (extracted_text_is_split_on_separators demo_load (str "%PDF")).
  - reflexivity.
  - exists "H"%char. split; [left; reflexivity | discriminate].
  - vm_compute. reflexivity.
  - vm_compute. discriminate.
Defined.

(** * The merger: no segment is lost *)

Lemma merge_split_covered (sep : separator) (chunk_size chunk_overlap : Z)
    (done : list cpp_string) (st : list cpp_string * cpp_string)
    (split : cpp_string) :
  covered done st ->
  covered (done ++ [split])
    (merge_split sep chunk_size chunk_overlap st split).
Proof.
  intros Hst seg Hin Hseg. destruct st as [chunks cur].
  apply in_app_or in Hin. unfold merge_split.
  destruct (negb (is_empty cur) && _) eqn:Hemit.
  - (* the buffer is emitted *)
    destruct Hin as [Hin|[<-|[]]].
    + left. destruct (Hst seg Hin Hseg) as [(c & Hc & Hinf)|Hinf];
        cbn [fst snd] in *.
      * exists c. split; [apply in_or_app; left; exact Hc | exact Hinf].
      * exists cur. split; [apply in_or_app; right; left; reflexivity | exact Hinf].
    + right. cbn [snd].
      match goal with
      | |- infix _ (if is_empty ?carry then _ else _) =>
          destruct (is_empty carry);
            [exists [], []; rewrite app_nil_r; reflexivity
            |exists (carry ++ sep_string sep), [];
             rewrite app_nil_r, <- app_assoc; reflexivity]
      end.
  - (* the buffer is kept *)
    cbn [fst snd].
    destruct Hin as [Hin|[<-|[]]].
    + destruct (Hst seg Hin Hseg) as [(c & Hc & Hinf)|Hinf];
        cbn [fst snd] in *.
      * left. exists c. auto.
      * right. destruct cur as [|a cur].
        { destruct Hinf as (pre & post & E).
          destruct pre; [destruct seg; [congruence | discriminate] | discriminate]. }
        cbn [is_empty]. destruct Hinf as (pre & post & ->).
        exists pre, (post ++ sep_string sep ++ split).
        rewrite <- !app_assoc. reflexivity.
    + right. destruct (is_empty cur).
      * exists [], []. rewrite app_nil_r. reflexivity.
      * exists (cur ++ sep_string sep), [].
        rewrite app_nil_r, <- app_assoc. reflexivity.
Qed.

Lemma merge_fold_covered (sep : separator) (chunk_size chunk_overlap : Z)
    (splits : list cpp_string) :
  forall (done : list cpp_string) (st : list cpp_string * cpp_string),
    covered done st ->
    covered (done ++ splits)
      (fold_left (merge_split sep chunk_size chunk_overlap) splits st).
Proof.
  induction splits as [|split splits IH]; intros done st Hst; cbn [fold_left].
  - rewrite app_nil_r. exact Hst.
  - replace (done ++ split :: splits) with ((done ++ [split]) ++ splits)
      by (rewrite <- app_assoc; reflexivity).
    apply IH, merge_split_covered, Hst.
Qed.

Lemma merge_splits_covers (sep : separator) (chunk_size chunk_overlap : Z)
    (splits : list cpp_string) (seg : cpp_string) :
  In seg splits -> seg <> [] ->
  exists chunk,
    In chunk (merge_splits sep chunk_size chunk_overlap [] splits) /\
    infix seg chunk.
Proof.
  intros Hin Hseg.
  assert (H0 : covered [] ([], [])) by (intros s []).
  pose proof (merge_fold_covered sep chunk_size chunk_overlap splits
                [] ([], []) H0 seg Hin Hseg) as H.
  unfold merge_splits.
  match type of H with
  | (exists c, In c (fst ?st) /\ _) \/ _ =>
      change (exists chunk,
                 In chunk (let '(chunks, current_chunk) := st in
                           if is_empty current_chunk then chunks
                           else chunks ++ [current_chunk]) /\
                 infix seg chunk);
      destruct st as [chunks cur]
  end.
  cbn [fst snd] in H. destruct H as [(c & Hc & Hinf)|Hinf].
  - exists c. split; [|exact Hinf].
    destruct (is_empty cur); [exact Hc | apply in_or_app; left; exact Hc].
  - exists cur. split; [|exact Hinf].
    destruct cur as [|a cur]; cbn [is_empty].
    + destruct Hinf as (pre & post & E).
      destruct pre; [destruct seg; [congruence | discriminate] | discriminate].
    + apply in_or_app. right. left. reflexivity.
Qed.

(** X18.  No segment is lost in the merge: whenever the [int] sum
    [chunk_size + chunk_overlap] is not negative (the reserve of the merge
    block is served), the block returns chunks, and every non-empty segment
    occurs, whole, in at least one of them. *)
Theorem merge_covers_segments (sep : separator) (chunk_size chunk_overlap : Z)
    (splits : list cpp_string) (seg : cpp_string) :
  0 <= int_add chunk_size chunk_overlap ->
  In seg splits -> seg <> [] ->
  exists chunks chunk,
    merge_block sep chunk_size chunk_overlap [] splits = Some chunks /\
    In chunk chunks /\ infix seg chunk.
Proof.
  intros Hsum Hin Hseg. unfold merge_block.
  rewrite reserve_served by exact Hsum.
  destruct (merge_splits_covers sep chunk_size chunk_overlap splits seg Hin Hseg)
    as (chunk & Hc & Hinf).
  eexists. exists chunk. split; [reflexivity|]. split; assumption.
Qed.

Lemma merge_covers_segments_witness :
  exists chunks chunk,
    merge_block double_newline 10 5 []
      [str "aaaaaaaa"; str "bbbbbbbb"; str "cccccccc"] = Some chunks /\
    In chunk chunks /\ infix (str "bbbbbbbb") chunk.
Proof.
  apply merge_covers_segments;
    [vm_compute; discriminate | right; left; reflexivity | discriminate].
Defined.

(** * The refused reserve *)

(** X19.  The refused reserve.  When the [int] sum [chunk_size +
    chunk_overlap] is negative, a text longer than the converted
    [chunk_size] that holds a line feed makes [split_text] throw
    [std::length_error]: the reserve heading the merge block of the first
    tier whose separator occurs asks for more than [max_size()], and no
    chunk is returned. *)
Theorem refused_reserve_throws (fuel : nat) (text : cpp_string)
    (chunk_size chunk_overlap : Z) :
  to_size_t chunk_size < len text -> In newline text ->
  int_add chunk_size chunk_overlap < 0 ->
  split_text fuel text chunk_size chunk_overlap = LengthError /\
  (split_text_traced fuel text chunk_size chunk_overlap
     = (ParagraphTier, LengthError) \/
   split_text_traced fuel text chunk_size chunk_overlap
     = (LineTier, LengthError)).
Proof.
  exact (negative_sum_throws fuel text chunk_size chunk_overlap).
Qed.

Lemma refused_reserve_throws_witness :
  split_text 0 (str "Para1" ++ nl2 ++ str "Para2") 3 (-10) = LengthError /\
  (split_text_traced 0 (str "Para1" ++ nl2 ++ str "Para2") 3 (-10)
     = (ParagraphTier, LengthError) \/
   split_text_traced 0 (str "Para1" ++ nl2 ++ str "Para2") 3 (-10)
     = (LineTier, LengthError)).
Proof.
  apply refused_reserve_throws.
  - vm_compute. reflexivity.
  - simpl. tauto.
  - vm_compute. reflexivity.
Defined.
